(** * Subtitle search front end: a shallow embedding

    The development follows the TypeScript sources of the front end:
    - [ResultItem.vue]: [formatTime], [escapeRegExp], [highlightText],
      [formatContext], [generateAudio], [generateVideo];
    - [App.vue]: [performSearch], [loadStats];
    - [vite.config.ts]: the dev-server [proxy] table and its [rewrite].

    JavaScript strings are sequences of UTF-16 code units, so a string is a
    [list N].  Operations that can throw return a [completion].  The first
    part holds the model, the second part the facts proved about it. *)

From Stdlib Require Import List NArith ZArith Arith Lia Bool String Ascii.
Import ListNotations.

(** * Part I: the model *)

(** ** JavaScript strings *)

Module Js.

Definition code_unit := N.
Definition js_string := list code_unit.

(** The code unit of an ASCII character, and the string of an ASCII literal. *)
Definition cu (a : ascii) : code_unit := N_of_ascii a.
Definition lit (s : string) : js_string := map cu (list_ascii_of_string s).
Arguments cu : simpl never.

(** Truthiness of a string: only the empty string is falsy. *)
Definition truthy (s : js_string) : bool :=
  match s with [] => false | _ :: _ => true end.

(** Abrupt completions that the modelled code can produce. *)
Inductive exn : Type :=
| TypeError
| SyntaxError
| NetworkError.

Inductive completion (A : Type) : Type :=
| Normal (a : A)
| Throw (e : exn).
Arguments Normal {A} a.
Arguments Throw {A} e.

(** [s.split(sep)] for a separator of one code unit: the fields between the
    separators, always at least one field. *)
Fixpoint split (sep : code_unit) (s : js_string) : list js_string :=
  match s with
  | [] => [[]]
  | c :: r =>
      if N.eqb c sep then [] :: split sep r
      else match split sep r with
           | [] => [[c]]
           | f :: fs => (c :: f) :: fs
           end
  end.

(** [a[i]]: [None] stands for [undefined]. *)
Definition index {A} (a : list A) (i : nat) : option A := nth_error a i.

(** Interpolation [`${v}`] of a value that may be [undefined]. *)
Definition interpolate (v : option js_string) : js_string :=
  match v with
  | Some s => s
  | None => lit "undefined"
  end.

(** Number of occurrences of a code unit. *)
Definition count (c : code_unit) (s : js_string) : nat :=
  List.length (filter (N.eqb c) s).

(** [s.startsWith(p)]. *)
Fixpoint startsWith (p s : js_string) : bool :=
  match p with
  | [] => true
  | c :: p' =>
      match s with
      | d :: s' => N.eqb c d && startsWith p' s'
      | [] => false
      end
  end.

(** ECMAScript's WhiteSpace and LineTerminator code units. *)
Definition is_white_space (c : code_unit) : bool :=
  existsb (N.eqb c)
    [0x9; 0xA; 0xB; 0xC; 0xD; 0x20; 0xA0; 0x1680; 0x2028; 0x2029; 0x202F;
     0x205F; 0x3000; 0xFEFF]%N
  || (N.leb 0x2000 c && N.leb c 0x200A).

Fixpoint trimStart (s : js_string) : js_string :=
  match s with
  | [] => []
  | c :: r => if is_white_space c then trimStart r else s
  end.

(** [s.trim()]. *)
Definition trim (s : js_string) : js_string :=
  rev (trimStart (rev (trimStart s))).

(** [a || b] on a value that may be absent: the first operand when it is
    truthy, the second otherwise. *)
Definition or_else (a : option js_string) (b : js_string) : js_string :=
  match a with
  | Some s => if truthy s then s else b
  | None => b
  end.

End Js.
Import Js.

(** ** ResultItem.vue: formatTime *)

(** [[
  const parts = timeStr.split(':')
  if (parts.length >= 2) {
    return `${parts[1]}:${parts[2].split('.')[0]}`
  }
  return timeStr
]]
    [parts[2].split] throws a [TypeError] when [parts[2]] is [undefined]. *)
Definition formatTime (timeStr : js_string) : completion js_string :=
  let parts := split (cu ":") timeStr in
  if 2 <=? List.length parts then
    let mm := interpolate (index parts 1) in
    match index parts 2 with
    | None => Throw TypeError
    | Some p2 =>
        Normal (mm ++ lit ":" ++ interpolate (index (split (cu ".") p2) 0))
    end
  else Normal timeStr.

(** ** Regular expressions

    The sources use three regular-expression literals and one expression
    built at run time from the escaped query.  All of them are a sequence of
    one-code-unit matchers, possibly anchored at the start of the input and
    possibly wrapped in one capture group. *)

Module RegExp.

Inductive atom : Type :=
| Chr (c : code_unit)
| Class (cs : list code_unit).

Record regex : Type := mkRegex {
  anchored : bool;      (* leading [^] *)
  atoms : list atom;
  capture : bool;       (* the whole body is capture group 1 *)
  ignoreCase : bool;    (* flag [i] *)
  global : bool         (* flag [g] *)
}.

(** ECMAScript's SyntaxCharacter. *)
Definition syntax_chars : js_string := lit "^$\.*+?()[]{}|".

Definition is_syntax (c : code_unit) : bool := existsb (N.eqb c) syntax_chars.

(** The pattern grammar of the constructor, for the fragment of literal
    patterns: a pattern character that is no syntax character stands for
    itself, and a backslash before a syntax character is an identity escape.
    Parsing stops before an unescaped [')'].  [None]: the pattern lies
    outside this fragment. *)
Fixpoint parse_atoms (p : js_string) : option (list atom * js_string) :=
  match p with
  | [] => Some ([], [])
  | c :: r =>
      if N.eqb c (cu "\") then
        match r with
        | d :: r' =>
            if is_syntax d then
              match parse_atoms r' with
              | Some (ats, rest) => Some (Chr d :: ats, rest)
              | None => None
              end
            else None
        | [] => None
        end
      else if N.eqb c (cu ")") then Some ([], p)
      else if is_syntax c then None
      else match parse_atoms r with
           | Some (ats, rest) => Some (Chr c :: ats, rest)
           | None => None
           end
  end.

Definition has_flag (f : code_unit) (flags : js_string) : bool :=
  existsb (N.eqb f) flags.

(** [new RegExp(pattern, flags)] on that fragment: either a bare run of
    literals or one capture group around such a run. *)
Definition RegExp (pattern flags : js_string) : option regex :=
  let mk cap ats :=
    mkRegex false ats cap (has_flag (cu "i") flags) (has_flag (cu "g") flags) in
  match pattern with
  | c :: body =>
      if N.eqb c (cu "(") then
        match parse_atoms body with
        | Some (ats, [d]) => if N.eqb d (cu ")") then Some (mk true ats) else None
        | _ => None
        end
      else match parse_atoms pattern with
           | Some (ats, []) => Some (mk false ats)
           | _ => None
           end
  | [] => Some (mk false [])
  end.

(** [GetSubstitution]: expansion of a replacement template.  The forms
    [$$], [$&] and [$1] are the ones the sources can reach; a [$1] without
    a capture group stays as it is. *)
Fixpoint GetSubstitution (matched : js_string) (cap : option js_string)
    (tpl : js_string) : js_string :=
  match tpl with
  | [] => []
  | c :: r =>
      if N.eqb c (cu "$") then
        match r with
        | d :: r' =>
            if N.eqb d (cu "$") then cu "$" :: GetSubstitution matched cap r'
            else if N.eqb d (cu "&") then matched ++ GetSubstitution matched cap r'
            else if N.eqb d (cu "1") then
              match cap with
              | Some g => g ++ GetSubstitution matched cap r'
              | None => c :: GetSubstitution matched cap r
              end
            else c :: GetSubstitution matched cap r
        | [] => [c]
        end
      else c :: GetSubstitution matched cap r
  end.

Section Matching.

(** The engine's [Canonicalize] for the [i] flag: the simple upper-case
    mapping of the runtime's Unicode tables, on single code units. *)
Variable Canonicalize : code_unit -> code_unit.

Definition same (ic : bool) (a b : code_unit) : bool :=
  if ic then N.eqb (Canonicalize a) (Canonicalize b) else N.eqb a b.

Definition atom_matches (ic : bool) (a : atom) (c : code_unit) : bool :=
  match a with
  | Chr d => same ic d c
  | Class cs => existsb (fun d => same ic d c) cs
  end.

(** Match the atoms against a prefix of [s]; the result is that prefix. *)
Fixpoint match_atoms (ic : bool) (ats : list atom) (s : js_string)
    : option js_string :=
  match ats with
  | [] => Some []
  | a :: ats' =>
      match s with
      | c :: r =>
          if atom_matches ic a c then
            match match_atoms ic ats' r with
            | Some m => Some (c :: m)
            | None => None
            end
          else None
      | [] => None
      end
  end.

(** A match starting exactly at the current position; [at_start] tells
    whether that position is index 0 of the subject. *)
Definition match_here (re : regex) (at_start : bool) (s : js_string)
    : option js_string :=
  if anchored re && negb at_start then None
  else match_atoms (ignoreCase re) (atoms re) s.

(** [RegExpBuiltinExec]: the leftmost match at or after the current
    position, as its offset and the matched text. *)
Fixpoint search (re : regex) (at_start : bool) (s : js_string)
    : option (nat * js_string) :=
  match match_here re at_start s with
  | Some m => Some (0, m)
  | None =>
      match s with
      | [] => None
      | _ :: r =>
          match search re false r with
          | Some (p, m) => Some (S p, m)
          | None => None
          end
      end
  end.

Definition substitution (re : regex) (tpl m : js_string) : js_string :=
  GetSubstitution m (if capture re then Some m else None) tpl.

(** [String.prototype.replace] with a regular expression and a template:
    with [g] every match of the left-to-right scan is replaced, the scan
    resuming after the match (one code unit further after an empty match);
    without [g] only the first match is. *)
Fixpoint replace_from (fuel : nat) (re : regex) (tpl : js_string)
    (at_start : bool) (s : js_string) : js_string :=
  match fuel with
  | 0 => s
  | S fuel' =>
      match search re at_start s with
      | None => s
      | Some (p, m) =>
          let out := firstn p s ++ substitution re tpl m in
          let rest := skipn (p + List.length m) s in
          if negb (global re) then out ++ rest
          else match m with
               | [] =>
                   match rest with
                   | [] => out
                   | c :: r => out ++ c :: replace_from fuel' re tpl false r
                   end
               | _ :: _ => out ++ replace_from fuel' re tpl false rest
               end
      end
  end.

Definition replace (re : regex) (tpl : js_string) (s : js_string) : js_string :=
  replace_from (S (List.length s)) re tpl true s.

End Matching.
End RegExp.

Import RegExp.

(** A canonicalization that is right for code units below 128 (letters
    [a]-[z] go to [A]-[Z]); it instantiates the runtime's mapping in the
    examples, which use such code units only. *)
Definition ascii_canonicalize (c : code_unit) : code_unit :=
  if (N.leb 97 c && N.leb c 122)%bool then (c - 32)%N else c.

(** ** ResultItem.vue: escapeRegExp and highlightText *)

Definition dquote : code_unit := 34%N.

(** The marker put around a match. *)
Definition mark_open : js_string :=
  lit "<span class=" ++ [dquote] ++ lit "highlight" ++ [dquote] ++ lit ">".
Definition mark_close : js_string := lit "</span>".

(** The template ['<span class="highlight">$1</span>']. *)
Definition highlight_template : js_string :=
  mark_open ++ lit "$1" ++ mark_close.

(** The literal [/[.*+?^${}()|[\]\\]/g]. *)
Definition re_special : regex :=
  mkRegex false [Class (lit ".*+?^${}()|[]\")] false false true.

Section ResultItemText.

Variable Canonicalize : code_unit -> code_unit.

(** [[ return str.replace(/[.*+?^${}()|[\]\\]/g, '\\$&') ]] *)
Definition escapeRegExp (str : js_string) : js_string :=
  replace Canonicalize re_special (lit "\$&") str.

(** [[
  if (!text || !query) return text
  const regex = new RegExp(`(${escapeRegExp(query)})`, 'gi')
  return text.replace(regex, '<span class="highlight">$1</span>')
]]
    [None] would mean that the constructed pattern leaves the fragment of
    [RegExp]; [highlightText_defined] shows that it never does. *)
Definition highlightText (text query : js_string) : option js_string :=
  if negb (truthy text) || negb (truthy query) then Some text
  else
    match RegExp (lit "(" ++ escapeRegExp query ++ lit ")") (lit "gi") with
    | Some regex => Some (replace Canonicalize regex highlight_template text)
    | None => None
    end.

End ResultItemText.


(** ** vite.config.ts: the dev-server proxy *)

Module ViteConfig.

Record ProxyOptions : Type := mkProxy {
  target : js_string;
  changeOrigin : bool;
  rewrite : option (js_string -> js_string)
}.

(** The literal [/^\/api/]. *)
Definition re_api : regex :=
  mkRegex true (map Chr (lit "/api")) false false false.

Section Config.

Variable Canonicalize : code_unit -> code_unit.

(** [[ rewrite: (path) => path.replace(/^\/api/, '') ]] *)
Definition rewrite_api (path : js_string) : js_string :=
  replace Canonicalize re_api [] path.

(** [[
  proxy: {
    '/api': { target: 'http://localhost:8000', changeOrigin: true,
              rewrite: (path) => path.replace(/^\/api/, '') },
    '/temp_audio': { target: 'http://localhost:8000', changeOrigin: true },
    '/temp_video': { target: 'http://localhost:8000', changeOrigin: true }
  }
]] *)
Definition proxy : list (js_string * ProxyOptions) :=
  [ (lit "/api",
     mkProxy (lit "http://localhost:8000") true (Some rewrite_api));
    (lit "/temp_audio", mkProxy (lit "http://localhost:8000") true None);
    (lit "/temp_video", mkProxy (lit "http://localhost:8000") true None) ].

(** What the dev server does with a request path: the first entry whose key
    the path starts with takes it, its [rewrite] is applied when there is
    one, and the request goes to its [target].  [None]: the path is served
    by the dev server itself. *)
Definition forward (path : js_string) : option (js_string * js_string) :=
  match find (fun e => startsWith (fst e) path) proxy with
  | Some (_, o) =>
      Some (target o,
            match rewrite o with
            | Some f => f path
            | None => path
            end)
  | None => None
  end.

End Config.
End ViteConfig.

(** ** Data exchanged with the backend *)

(** One search result.  [season], [episode] and [dialogue_index] are
    integer-valued. *)
Record SearchResult : Type := mkResult {
  season : Z;
  episode : Z;
  filename : js_string;
  dialogue_index : Z;
  start_time : js_string;
  end_time : js_string;
  chinese_text : js_string;
  english_text : js_string;
  context_before : js_string;
  context_after : js_string
}.

(** The answer to [GET /search]; the front end reads [results] only. *)
Record SearchResponse : Type := mkSearchResponse {
  resp_results : list SearchResult
}.

(** The body of [POST /api/generate_audio] and [POST /api/generate_video]. *)
Record ClipRequest : Type := mkClipRequest {
  req_season : Z;
  req_episode : Z;
  req_start_time : js_string;
  req_end_time : js_string
}.

(** The answer to a clip request; [message] may be absent. *)
Record ClipResponse : Type := mkClipResponse {
  success : bool;
  audio_url : js_string;
  video_url : js_string;
  message : option js_string
}.

(** ** Effects of the component methods

    A method runs on the state of its component, may throw, and leaves a
    trace of what it did to the outside: requests, console output, alerts. *)

Module Eff.

Inductive event : Type :=
| Get (baseURL url q : js_string)
| Post (url : js_string) (body : ClipRequest)
| ConsoleError (msg : js_string) (e : exn)
| Alert (msg : js_string).

Definition M (S A : Type) : Type := S -> completion A * S * list event.

Definition ret {S A} (a : A) : M S A := fun s => (Normal a, s, []).

Definition bind {S A B} (m : M S A) (k : A -> M S B) : M S B :=
  fun s =>
    match m s with
    | (Normal a, s1, ev1) =>
        let '(r, s2, ev2) := k a s1 in (r, s2, ev1 ++ ev2)
    | (Throw e, s1, ev1) => (Throw e, s1, ev1)
    end.

Definition read {S A} (f : S -> A) : M S A := fun s => (Normal (f s), s, []).
Definition write {S} (f : S -> S) : M S unit := fun s => (Normal tt, f s, []).
Definition emit {S} (e : event) : M S unit := fun s => (Normal tt, s, [e]).

(** An awaited request: the event, then the answer or the rejection. *)
Definition await {S A} (e : event) (answer : completion A) : M S A :=
  fun s => (answer, s, [e]).

(** [try { body } catch (error) { handler }]. *)
Definition try_catch {S A} (body : M S A) (handler : exn -> M S A) : M S A :=
  fun s =>
    match body s with
    | (Normal a, s1, ev1) => (Normal a, s1, ev1)
    | (Throw e, s1, ev1) =>
        let '(r, s2, ev2) := handler e s1 in (r, s2, ev1 ++ ev2)
    end.

(** [try { body } finally { fin }]: [fin] runs whatever [body] did, and the
    completion is that of [body] unless [fin] throws. *)
Definition finally {S A} (body : M S A) (fin : M S unit) : M S A :=
  fun s =>
    let '(r, s1, ev1) := body s in
    match fin s1 with
    | (Normal _, s2, ev2) => (r, s2, ev1 ++ ev2)
    | (Throw e, s2, ev2) => (Throw e, s2, ev1 ++ ev2)
    end.

Definition console_error {S} (msg : js_string) (e : exn) : M S unit :=
  emit (ConsoleError msg e).
Definition alert {S} (msg : js_string) : M S unit := emit (Alert msg).

Definition is_request (e : event) : bool :=
  match e with
  | Get _ _ _ | Post _ _ => true
  | ConsoleError _ _ | Alert _ => false
  end.

Definition is_alert (e : event) : bool :=
  match e with
  | Alert _ => true
  | _ => false
  end.

(** The parts of a finished run. *)
Definition outcome {S A} (r : completion A * S * list event) : completion A :=
  fst (fst r).
Definition final {S A} (r : completion A * S * list event) : S :=
  snd (fst r).
Definition trace {S A} (r : completion A * S * list event) : list event :=
  snd r.

Declare Scope eff_scope.
Delimit Scope eff_scope with eff.
Notation "x <- c1 ;; c2" := (bind c1 (fun x => c2))
  (at level 61, c1 at next level, right associativity) : eff_scope.
Notation "c1 ;; c2" := (bind c1 (fun _ => c2))
  (at level 61, right associativity) : eff_scope.

End Eff.
Import Eff.

(** ** App.vue: performSearch *)

Module App.

(** The refs of the component that [performSearch] touches. *)
Record state : Type := mkState {
  query : js_string;
  results : list SearchResult;
  loading : bool
}.

Definition set_results (v : list SearchResult) : M state unit :=
  write (fun s => mkState (query s) v (loading s)).
Definition set_loading (v : bool) : M state unit :=
  write (fun s => mkState (query s) (results s) v).

(** ['搜索失败:'] *)
Definition msg_search_failed : js_string :=
  [0x641c; 0x7d22; 0x5931; 0x8d25; 0x3a]%N.

Section Component.

(** [location.protocol] and [location.hostname]. *)
Variables protocol hostname : js_string.

(** The network: what a [GET] to a base URL and path with parameter [q]
    resolves to, or how it is rejected. *)
Variable http_get : js_string -> js_string -> js_string -> completion SearchResponse.

(** [[ const API_BASE = `${location.protocol}//${location.hostname}:18000` ]] *)
Definition API_BASE : js_string :=
  protocol ++ lit "//" ++ hostname ++ lit ":18000".

(** [api.get(url, { params: { q } })] for [api = axios.create({ baseURL: API_BASE })]. *)
Definition api_get (url q : js_string) : M state SearchResponse :=
  await (Get API_BASE url q) (http_get API_BASE url q).

Local Open Scope eff_scope.

(** [[
  if (!query.value.trim()) {
    results.value = []
    return
  }
  loading.value = true
  try {
    const response = await api.get(`/search`, { params: { q: query.value } })
    results.value = response.data.results
  } catch (error) {
    console.error('搜索失败:', error)
    results.value = []
  } finally {
    loading.value = false
  }
]] *)
Definition performSearch : M state unit :=
  q <- read query ;;
  if negb (truthy (trim q)) then set_results []
  else
    set_loading true ;;
    finally
      (try_catch
         (q' <- read query ;;
          response <- api_get (lit "/search") q' ;;
          set_results (resp_results response))
         (fun error =>
            console_error msg_search_failed error ;;
            set_results []))
      (set_loading false).

End Component.
End App.

(** ** ResultItem.vue: generateAudio and generateVideo *)

Module ResultItem.

Record props : Type := mkProps {
  result : SearchResult;
  query : js_string
}.

Record state : Type := mkState {
  audioUrl : js_string;
  generating : bool;
  videoUrl : js_string;
  generatingVideo : bool
}.

Definition set_audioUrl (v : js_string) : M state unit :=
  write (fun s => mkState v (generating s) (videoUrl s) (generatingVideo s)).
Definition set_generating (v : bool) : M state unit :=
  write (fun s => mkState (audioUrl s) v (videoUrl s) (generatingVideo s)).
Definition set_videoUrl (v : js_string) : M state unit :=
  write (fun s => mkState (audioUrl s) (generating s) v (generatingVideo s)).
Definition set_generatingVideo (v : bool) : M state unit :=
  write (fun s => mkState (audioUrl s) (generating s) (videoUrl s) v).

(** ['生成音频失败'], ['生成音频失败:'] and ['生成音频失败，请稍后重试']. *)
Definition msg_audio_failed : js_string :=
  [0x751f; 0x6210; 0x97f3; 0x9891; 0x5931; 0x8d25]%N.
Definition msg_audio_failed_log : js_string := msg_audio_failed ++ lit ":".
Definition msg_audio_retry : js_string :=
  msg_audio_failed ++ [0xff0c; 0x8bf7; 0x7a0d; 0x540e; 0x91cd; 0x8bd5]%N.

(** ['生成视频失败'], ['生成视频失败:'] and ['生成视频失败，请稍后重试']. *)
Definition msg_video_failed : js_string :=
  [0x751f; 0x6210; 0x89c6; 0x9891; 0x5931; 0x8d25]%N.
Definition msg_video_failed_log : js_string := msg_video_failed ++ lit ":".
Definition msg_video_retry : js_string :=
  msg_video_failed ++ [0xff0c; 0x8bf7; 0x7a0d; 0x540e; 0x91cd; 0x8bd5]%N.

Section Component.

Variable the_props : props.

(** The network: what a [POST] of a body to a path resolves to, or how it
    is rejected. *)
Variable http_post : js_string -> ClipRequest -> completion ClipResponse.

Definition axios_post (url : js_string) (body : ClipRequest)
    : M state ClipResponse :=
  await (Post url body) (http_post url body).

(** The object literal both methods send. *)
Definition clip_body : ClipRequest :=
  {| req_season := season (result the_props);
     req_episode := episode (result the_props);
     req_start_time := start_time (result the_props);
     req_end_time := end_time (result the_props) |}.

Local Open Scope eff_scope.

(** [[
  generating.value = true
  try {
    const response = await axios.post('/api/generate_audio', {
      season: props.result.season, episode: props.result.episode,
      start_time: props.result.start_time, end_time: props.result.end_time })
    if (response.data.success) {
      audioUrl.value = response.data.audio_url
    } else {
      alert(response.data.message || '生成音频失败')
    }
  } catch (error) {
    console.error('生成音频失败:', error)
    alert('生成音频失败，请稍后重试')
  } finally {
    generating.value = false
  }
]] *)
Definition generateAudio : M state unit :=
  set_generating true ;;
  finally
    (try_catch
       (response <- axios_post (lit "/api/generate_audio") clip_body ;;
        if success response then set_audioUrl (audio_url response)
        else alert (or_else (message response) msg_audio_failed))
       (fun error =>
          console_error msg_audio_failed_log error ;;
          alert msg_audio_retry))
    (set_generating false).

(** The same method for video: [/api/generate_video], [videoUrl],
    [generatingVideo] and the video messages. *)
Definition generateVideo : M state unit :=
  set_generatingVideo true ;;
  finally
    (try_catch
       (response <- axios_post (lit "/api/generate_video") clip_body ;;
        if success response then set_videoUrl (video_url response)
        else alert (or_else (message response) msg_video_failed))
       (fun error =>
          console_error msg_video_failed_log error ;;
          alert msg_video_retry))
    (set_generatingVideo false).

End Component.
End ResultItem.

(** ** Notions used to state the claims *)

(** [Scanned mt sub s out]: [out] is [s] read left to right, where each
    position at which [mt] matches a non-empty [m] contributes [sub m] and
    the scan resumes after [m], and every other position contributes its
    code unit. *)
Inductive Scanned (mt : js_string -> option js_string)
    (sub : js_string -> js_string) : js_string -> js_string -> Prop :=
| Scan_end : mt [] = None -> Scanned mt sub [] []
| Scan_miss c r out :
    mt (c :: r) = None -> Scanned mt sub r out ->
    Scanned mt sub (c :: r) (c :: out)
| Scan_hit m rest out :
    m <> [] -> mt (m ++ rest) = Some m -> Scanned mt sub rest out ->
    Scanned mt sub (m ++ rest) (sub m ++ out).

(** A syntax character gets a backslash in front; any other code unit is
    kept. *)
Definition escape_unit (c : code_unit) : js_string :=
  if is_syntax c then [cu "\"; c] else [c].

(** The regular expression that [highlightText] builds for a query. *)
Definition query_regex (q : js_string) : regex :=
  mkRegex false (map Chr q) true true true.

(** The output of [highlightText] read back: code units copied from the
    text, and matches wrapped in the marker. *)
Inductive piece : Type :=
| Plain (c : code_unit)
| Hit (m : js_string).

Definition render_piece (p : piece) : js_string :=
  match p with
  | Plain c => [c]
  | Hit m => mark_open ++ m ++ mark_close
  end.

(** The piece with the inserted marker deleted. *)
Definition erase_piece (p : piece) : js_string :=
  match p with
  | Plain c => [c]
  | Hit m => m
  end.

Definition render (ps : list piece) : js_string := flat_map render_piece ps.
Definition erase (ps : list piece) : js_string := flat_map erase_piece ps.

(** A wrapped piece starts at index [i] of the text. *)
Definition hit_at (ps : list piece) (i : nat) : Prop :=
  exists l1 m l2, ps = l1 ++ Hit m :: l2 /\ List.length (erase l1) = i.

(** Index [i] of the text lies inside a wrapped piece, after its start. *)
Definition inside_hit (ps : list piece) (i : nat) : Prop :=
  exists l1 m l2, ps = l1 ++ Hit m :: l2 /\
    List.length (erase l1) < i < List.length (erase l1) + List.length m.

Section Occurrences.

Variable Canonicalize : code_unit -> code_unit.

(** Equality up to case, code unit by code unit. *)
Definition ci_eq (a b : js_string) : Prop :=
  map Canonicalize a = map Canonicalize b.

(** [q] occurs in [text] at index [i], up to case. *)
Definition ci_occurrence (q text : js_string) (i : nat) : Prop :=
  i + List.length q <= List.length text /\
  ci_eq (firstn (List.length q) (skipn i text)) q.

Definition hit_ok (q : js_string) (p : piece) : Prop :=
  match p with
  | Plain _ => True
  | Hit m => ci_eq m q
  end.

(** The claim as the spec words it: every occurrence is wrapped. *)
Definition wraps_every_occurrence (text q out : js_string) : Prop :=
  exists ps, out = render ps /\ erase ps = text /\ Forall (hit_ok q) ps /\
    forall i, ci_occurrence q text i -> hit_at ps i.

(** What the left-to-right scan gives: every occurrence is wrapped or
    starts inside an occurrence that is wrapped. *)
Definition wraps_scanned_occurrences (text q out : js_string) : Prop :=
  exists ps, out = render ps /\ erase ps = text /\ Forall (hit_ok q) ps /\
    forall i, ci_occurrence q text i -> hit_at ps i \/ inside_hit ps i.

(** The text holds a match of [q] up to case: the decision procedure. *)
Definition ci_prefixb (q s : js_string) : bool :=
  (List.length q <=? List.length s) &&
  forallb (fun p => N.eqb (Canonicalize (fst p)) (Canonicalize (snd p)))
          (combine (firstn (List.length q) s) q).

Fixpoint contains_ci (q s : js_string) : bool :=
  ci_prefixb q s ||
  match s with
  | [] => false
  | _ :: r => contains_ci q r
  end.

(** An entry whose Chinese or English text holds a match of [q]. *)
Definition has_ci_match (q : js_string) (e : SearchResult) : Prop :=
  (exists i, ci_occurrence q (chinese_text e) i) \/
  (exists i, ci_occurrence q (english_text e) i).

(** Modelled from the spec: the backend's [GET /search] handler, which is
    not among the sources.  The spec gives its answer as the entries of the
    corpus whose [chinese_text] or [english_text] contains a
    case-insensitive match of [q], at most [limit] of them. *)
Definition backend_search (corpus : list SearchResult) (q : js_string)
    (limit : nat) : SearchResponse :=
  mkSearchResponse
    (firstn limit
       (filter (fun e => contains_ci q (chinese_text e)
                         || contains_ci q (english_text e)) corpus)).

(** A network whose [GET] requests are rejected or answered by that
    backend. *)
Definition served_by_backend (corpus : list SearchResult)
    (http_get : js_string -> js_string -> js_string -> completion SearchResponse)
    : Prop :=
  forall base url q,
    match http_get base url q with
    | Normal r => exists limit, r = backend_search corpus q limit
    | Throw _ => True
    end.

End Occurrences.

(** ** ResultItem.vue: formatContext *)


Section ResultItemContext.

Variable Canonicalize : code_unit -> code_unit.


End ResultItemContext.

(** ** The templates: what is on screen in a state *)

Module ResultItemView.

(** [[ <button v-if="!audioUrl && !generating" @click="generateAudio"> ]] *)
Definition shows_generate_audio (s : ResultItem.state) : bool :=
  negb (truthy (ResultItem.audioUrl s)) && negb (ResultItem.generating s).

(** [[ <button v-if="generating" disabled> ]] *)
Definition shows_generating_audio (s : ResultItem.state) : bool :=
  ResultItem.generating s.

(** [[ <div v-if="audioUrl" class="audio-player"> ]] *)
Definition shows_audio_player (s : ResultItem.state) : bool :=
  truthy (ResultItem.audioUrl s).

(** [[ <button v-if="!videoUrl && !generatingVideo" @click="generateVideo"> ]] *)
Definition shows_generate_video (s : ResultItem.state) : bool :=
  negb (truthy (ResultItem.videoUrl s)) && negb (ResultItem.generatingVideo s).

(** [[ <button v-if="generatingVideo" disabled> ]] *)
Definition shows_generating_video (s : ResultItem.state) : bool :=
  ResultItem.generatingVideo s.

(** [[ <div v-if="videoUrl" class="video-player"> ]] *)
Definition shows_video_player (s : ResultItem.state) : bool :=
  truthy (ResultItem.videoUrl s).

End ResultItemView.

Module AppView.




End AppView.

(** ** Further notions for the facts *)

(** The longest prefix of [s] that holds none of the code units [seps]. *)
Fixpoint before_any (seps : list code_unit) (s : js_string) : js_string :=
  match s with
  | [] => []
  | c :: r => if existsb (N.eqb c) seps then [] else c :: before_any seps r
  end.


(** The wrapped pieces among the pieces. *)
Definition is_hit (p : piece) : bool :=
  match p with
  | Hit _ => true
  | Plain _ => false
  end.

(** ** Sample data for the worked instances *)

Definition sample_result (zh en : js_string) : SearchResult :=
  mkResult 5 1 (lit "S05E01.ass") 42 (lit "0:03:11.39") (lit "0:03:14.36")
    zh en [] [].

(** Two entries; the first has the Chinese text ['你好']. *)
Definition sample_corpus : list SearchResult :=
  [ sample_result [0x4f60; 0x597d]%N (lit "Hello there");
    sample_result [] (lit "Good night") ].

(** A network that answers every search from [sample_corpus]. *)
Definition sample_http_get (base url q : js_string)
    : completion SearchResponse :=
  Normal (backend_search ascii_canonicalize sample_corpus q 50).

(** A network that rejects every request. *)
Definition failing_http_get (base url q : js_string)
    : completion SearchResponse :=
  Throw NetworkError.
Definition failing_http_post (url : js_string) (body : ClipRequest)
    : completion ClipResponse :=
  Throw NetworkError.

(** A clip service that answers with a URL under [/temp_audio]. *)
Definition sample_http_post (url : js_string) (body : ClipRequest)
    : completion ClipResponse :=
  Normal (mkClipResponse true (lit "/temp_audio/clip.mp3")
            (lit "/temp_video/clip.mp4") None).

Definition sample_props : ResultItem.props :=
  ResultItem.mkProps (sample_result [0x4f60; 0x597d]%N (lit "Hello there"))
    (lit "hello").

Definition idle_item : ResultItem.state := ResultItem.mkState [] false [] false.

(** * Part II: facts *)

(** *** Facts about [split] *)

Lemma split_not_nil sep s : split sep s <> [].
Proof.
  destruct s as [|c r]; simpl; [discriminate|].
  destruct (N.eqb c sep); [discriminate|].
  destruct (split sep r); discriminate.
Qed.

Lemma split_length sep s : List.length (split sep s) = S (count sep s).
Proof.
  unfold count.
  induction s as [|c r IH]; simpl; [reflexivity|].
  rewrite (N.eqb_sym sep c).
  destruct (N.eqb c sep); simpl.
  - now rewrite IH.
  - destruct (split sep r) eqn:E; simpl in *; [discriminate|exact IH].
Qed.

Lemma split_no_sep sep s : ~ In sep s -> split sep s = [s].
Proof.
  induction s as [|c r IH]; simpl; intros H; [reflexivity|].
  destruct (N.eqb_spec c sep) as [->|Hne]; [tauto|].
  rewrite IH by tauto. reflexivity.
Qed.

Lemma split_app_sep sep a b :
  ~ In sep a -> split sep (a ++ sep :: b) = a :: split sep b.
Proof.
  induction a as [|c r IH]; simpl; intros H.
  - now rewrite N.eqb_refl.
  - destruct (N.eqb_spec c sep) as [->|Hne]; [tauto|].
    rewrite IH by tauto. reflexivity.
Qed.

Lemma split_hd_app sep a b :
  ~ In sep a -> exists t fs, split sep (a ++ b) = (a ++ t) :: fs.
Proof.
  induction a as [|c r IH]; simpl; intros H.
  - destruct (split sep b) as [|t fs] eqn:E.
    + now apply split_not_nil in E.
    + now exists t, fs.
  - destruct (N.eqb_spec c sep) as [->|Hne]; [tauto|].
    destruct IH as (t & fs & ->); [tauto|].
    now exists t, fs.
Qed.

Lemma count_zero_not_in c s : count c s = 0 -> ~ In c s.
Proof.
  unfold count. induction s as [|d r IH]; simpl; [tauto|].
  destruct (N.eqb_spec c d) as [->|Hne]; simpl; [discriminate|].
  intros H [E|E]; [congruence|tauto].
Qed.

(** *** Claims about [formatTime] *)

(** C2: for an input [h:mm:ss.ms] whose hour, minute and second fields hold
    no [':'] and whose second field holds no ['.'], [formatTime] returns
    the minute field, [':'], and the second field without its fraction. *)
Theorem formatTime_hms (h mm ss ms : js_string) :
  ~ In (cu ":") h -> ~ In (cu ":") mm -> ~ In (cu ":") ss ->
  ~ In (cu ".") ss ->
  formatTime (h ++ lit ":" ++ mm ++ lit ":" ++ ss ++ lit "." ++ ms)
  = Normal (mm ++ lit ":" ++ ss).
Proof.
  intros Hh Hm Hs Hd.
  unfold formatTime.
  change (lit ":") with [cu ":"]. change (lit ".") with [cu "."].
  simpl app.
  rewrite (split_app_sep _ _ _ Hh), (split_app_sep _ _ _ Hm).
  destruct (split_hd_app (cu ":") (ss ++ [cu "."]) ms) as (t & fs & E).
  { rewrite in_app_iff. simpl. intros [?|[E|[]]]; [tauto|discriminate]. }
  rewrite <- !app_assoc in E. cbn [app] in E. rewrite E.
  cbn [List.length Nat.leb index nth_error interpolate].
  rewrite (split_app_sep _ _ _ Hd). reflexivity.
Qed.

Lemma formatTime_hms_witness :
  formatTime (lit "0:03:11.39") = Normal (lit "03:11").
Proof.
  apply (formatTime_hms (lit "0") (lit "03") (lit "11") (lit "39"));
    simpl; intros H; repeat (destruct H as [H|H]; [discriminate H|]); exact H.
Defined.

(** C5: with no [':'] the input comes back unchanged; with exactly one [':']
    the access [parts[2].split] is on [undefined] and a [TypeError] is
    thrown; with two or more [':'] a string is returned. *)
Theorem formatTime_by_colons (s : js_string) :
  (count (cu ":") s = 0 -> formatTime s = Normal s) /\
  (count (cu ":") s = 1 -> formatTime s = Throw TypeError) /\
  (2 <= count (cu ":") s -> exists r, formatTime s = Normal r).
Proof.
  unfold formatTime, index.
  pose proof (split_length (cu ":") s) as L.
  destruct (split (cu ":") s) as [|p0 [|p1 [|p2 ps]]]; simpl in L;
    repeat split; intros H; try lia; try reflexivity.
  simpl. eauto.
Qed.

Lemma formatTime_by_colons_witness :
  formatTime (lit "0311") = Normal (lit "0311") /\
  formatTime (lit "03:11") = Throw TypeError /\
  exists r, formatTime (lit "0:03:11") = Normal r.
Proof.
  split; [|split].
  - apply (proj1 (formatTime_by_colons (lit "0311"))). reflexivity.
  - apply (proj1 (proj2 (formatTime_by_colons (lit "03:11")))). reflexivity.
  - apply (proj2 (proj2 (formatTime_by_colons (lit "0:03:11")))).
    vm_compute. lia.
Defined.

(** ** The scan performed by a global replace *)

Section MatchingFacts.

Variable Canonicalize : code_unit -> code_unit.
Variable re : regex.
Variable tpl : js_string.

Let mt := match_atoms Canonicalize (ignoreCase re) (atoms re).
Let sub := substitution re tpl.

Lemma match_atoms_prefix ic ats s m :
  match_atoms Canonicalize ic ats s = Some m ->
  s = m ++ skipn (List.length m) s /\ List.length m = List.length ats.
Proof.
  revert s m. induction ats as [|a ats IH]; simpl; intros s m H.
  - injection H as <-. now split.
  - destruct s as [|c r]; [discriminate|].
    destruct (atom_matches Canonicalize ic a c); [|discriminate].
    destruct (match_atoms Canonicalize ic ats r) as [m'|] eqn:E; [|discriminate].
    injection H as <-. destruct (IH _ _ E) as [E1 E2]. simpl.
    split; [now rewrite <- E1 | now rewrite E2].
Qed.

Hypothesis unanchored : anchored re = false.

Lemma match_here_unanchored b s : match_here Canonicalize re b s = mt s.
Proof. unfold match_here. now rewrite unanchored. Qed.

Lemma search_bound b s p m :
  search Canonicalize re b s = Some (p, m) -> p + List.length m <= List.length s.
Proof.
  revert b p. induction s as [|c r IH]; intros b p; simpl;
    rewrite match_here_unanchored.
  - destruct (mt []) as [m'|] eqn:E; [|discriminate].
    intros H. injection H as <- <-.
    apply match_atoms_prefix in E. destruct E as [E _].
    destruct m'; [simpl; lia|discriminate].
  - destruct (mt (c :: r)) as [m'|] eqn:E.
    + intros H. injection H as <- <-.
      apply match_atoms_prefix in E. destruct E as [E _].
      apply (f_equal (@List.length _)) in E.
      rewrite length_app in E. simpl in *. lia.
    + destruct (search Canonicalize re false r) as [[p' m']|] eqn:Es; [|discriminate].
      intros H. injection H as <- <-. apply IH in Es. simpl. lia.
Qed.

Lemma search_None_scanned b s :
  search Canonicalize re b s = None -> Scanned mt sub s s.
Proof.
  revert b. induction s as [|c r IH]; intros b; simpl;
    rewrite match_here_unanchored.
  - destruct (mt []) eqn:E; [discriminate|]. intros _. now constructor.
  - destruct (mt (c :: r)) eqn:E; [discriminate|].
    destruct (search Canonicalize re false r) as [[p' m']|] eqn:Es; [discriminate|].
    intros _. constructor; [assumption|]. now apply (IH false).
Qed.

Lemma search_Some_scanned b s p m out :
  search Canonicalize re b s = Some (p, m) -> m <> [] ->
  Scanned mt sub (skipn (p + List.length m) s) out ->
  Scanned mt sub s (firstn p s ++ sub m ++ out).
Proof.
  revert b p. induction s as [|c r IH]; intros b p; simpl search;
    rewrite match_here_unanchored.
  - destruct (mt []) as [m'|] eqn:E; [|discriminate].
    intros H. injection H as <- <-. intros Hm.
    apply match_atoms_prefix in E. destruct E as [E _].
    destruct m'; [contradiction|discriminate].
  - destruct (mt (c :: r)) as [m'|] eqn:E.
    + intros H. injection H as <- <-. intros Hm Hs.
      cbn [Nat.add firstn app] in *.
      pose proof (match_atoms_prefix _ _ _ _ E) as [E1 _].
      remember (skipn (List.length m') (c :: r)) as rest eqn:Er.
      rewrite E1 in E |- *. now constructor.
    + destruct (search Canonicalize re false r) as [[p' m']|] eqn:Es; [|discriminate].
      intros H. injection H as <- <-. intros Hm Hs.
      cbn [Nat.add firstn skipn app] in *.
      constructor; [assumption|]. now apply (IH false).
Qed.

Lemma search_match_length b s p m :
  search Canonicalize re b s = Some (p, m) ->
  List.length m = List.length (atoms re).
Proof.
  revert b p. induction s as [|c r IH]; intros b p; simpl;
    rewrite match_here_unanchored.
  - destruct (mt []) as [m'|] eqn:E; [|discriminate].
    intros H. injection H as <- <-. now apply match_atoms_prefix in E.
  - destruct (mt (c :: r)) as [m'|] eqn:E.
    + intros H. injection H as <- <-. now apply match_atoms_prefix in E.
    + destruct (search Canonicalize re false r) as [[p' m']|] eqn:Es;
        [|discriminate].
      intros H. injection H as <- <-. eapply IH; eauto.
Qed.

Hypothesis is_global : global re = true.
Hypothesis has_atoms : atoms re <> [].

(** Enough fuel: the global replace is the scan. *)
Lemma replace_from_scanned fuel b s :
  List.length s < fuel ->
  Scanned mt sub s (replace_from Canonicalize fuel re tpl b s).
Proof.
  revert b s. induction fuel as [|fuel IH]; intros b s Hf; [lia|].
  simpl. destruct (search Canonicalize re b s) as [[p m]|] eqn:Es.
  - rewrite is_global. cbn [negb].
    pose proof (search_bound _ _ _ _ Es) as Hb.
    pose proof (search_match_length _ _ _ _ Es) as Hl.
    assert (Hm : m <> []).
    { intros ->. destruct (atoms re); [contradiction|discriminate]. }
    destruct m as [|c0 m0]; [contradiction|].
    rewrite <- app_assoc.
    apply (search_Some_scanned _ _ _ _ _ Es Hm).
    apply IH. rewrite length_skipn. simpl in *. lia.
  - eapply search_None_scanned; eauto.
Qed.

Lemma replace_scanned s : Scanned mt sub s (replace Canonicalize re tpl s).
Proof. apply replace_from_scanned. lia. Qed.

End MatchingFacts.

(** ** What escapeRegExp returns, and what the constructor makes of it *)

Lemma existsb_eqb_sym (c : code_unit) l :
  existsb (fun d => N.eqb d c) l = existsb (N.eqb c) l.
Proof.
  induction l as [|x l IH]; simpl; [reflexivity|].
  now rewrite IH, N.eqb_sym.
Qed.

Lemma special_class_is_syntax c :
  existsb (N.eqb c) (lit ".*+?^${}()|[]\") = is_syntax c.
Proof.
  unfold is_syntax. apply Bool.eq_iff_eq_true. rewrite !existsb_exists.
  assert (H : In c (lit ".*+?^${}()|[]\") <-> In c syntax_chars).
  { vm_compute. tauto. }
  split; intros (d & Hin & E); apply N.eqb_eq in E; subst d;
    exists c; (split; [tauto|apply N.eqb_refl]).
Qed.

Section Escaping.

Variable Canonicalize : code_unit -> code_unit.

Lemma special_matches c :
  atom_matches Canonicalize false (Class (lit ".*+?^${}()|[]\")) c = is_syntax c.
Proof.
  unfold atom_matches, same. rewrite existsb_eqb_sym.
  apply special_class_is_syntax.
Qed.

Lemma escape_scanned s out :
  Scanned (match_atoms Canonicalize (ignoreCase re_special) (atoms re_special))
          (substitution re_special (lit "\$&")) s out ->
  out = flat_map escape_unit s.
Proof.
  induction 1 as [E|c r out E _ IH|m rest out Hm E _ IH].
  - reflexivity.
  - cbn [re_special ignoreCase atoms match_atoms] in E.
    rewrite special_matches in E.
    unfold escape_unit. cbn [flat_map].
    destruct (is_syntax c); [discriminate|]. now rewrite IH.
  - destruct m as [|c m]; [contradiction|].
    cbn [re_special ignoreCase atoms match_atoms app] in E.
    rewrite special_matches in E.
    destruct (is_syntax c) eqn:Ec; [|discriminate].
    injection E as E. destruct m; [|discriminate].
    cbn [app flat_map]. unfold escape_unit. rewrite Ec, IH. reflexivity.
Qed.

Lemma escapeRegExp_flat_map s :
  escapeRegExp Canonicalize s = flat_map escape_unit s.
Proof.
  apply escape_scanned. unfold escapeRegExp.
  apply replace_scanned; [reflexivity|reflexivity|discriminate].
Qed.

End Escaping.

Lemma backslash_is_syntax : is_syntax (cu "\") = true.
Proof. reflexivity. Qed.

Lemma rparen_is_syntax : is_syntax (cu ")") = true.
Proof. reflexivity. Qed.

(** The escaped query parses as the run of literals of the query itself. *)
Lemma parse_atoms_escaped q rest :
  parse_atoms (flat_map escape_unit q ++ cu ")" :: rest)
  = Some (map Chr q, cu ")" :: rest).
Proof.
  induction q as [|c q IH]; [reflexivity|].
  cbn [flat_map map]. unfold escape_unit at 1.
  destruct (is_syntax c) eqn:Ec.
  - cbn [app parse_atoms]. rewrite N.eqb_refl, Ec, IH. reflexivity.
  - cbn [app parse_atoms].
    destruct (N.eqb_spec c (cu "\")) as [->|_];
      [rewrite backslash_is_syntax in Ec; discriminate|].
    destruct (N.eqb_spec c (cu ")")) as [->|_];
      [rewrite rparen_is_syntax in Ec; discriminate|].
    rewrite Ec, IH. reflexivity.
Qed.

Lemma RegExp_escaped Canonicalize q :
  RegExp (lit "(" ++ escapeRegExp Canonicalize q ++ lit ")") (lit "gi")
  = Some (query_regex q).
Proof.
  rewrite escapeRegExp_flat_map.
  change (lit "(") with [cu "("]. change (lit ")") with [cu ")"].
  cbn [app RegExp]. rewrite N.eqb_refl, parse_atoms_escaped, N.eqb_refl.
  reflexivity.
Qed.

Lemma highlight_substitution q m :
  substitution (query_regex q) highlight_template m
  = mark_open ++ m ++ mark_close.
Proof. reflexivity. Qed.

(** ** Highlighted text as a sequence of pieces *)

Section OccurrenceFacts.

Variable Canonicalize : code_unit -> code_unit.

Lemma match_literal_Some q s m :
  match_atoms Canonicalize true (map Chr q) s = Some m -> ci_eq Canonicalize m q.
Proof.
  revert s m. induction q as [|d q IH]; simpl; intros s m H.
  - injection H as <-. reflexivity.
  - destruct s as [|c r]; [discriminate|].
    destruct (N.eqb_spec (Canonicalize d) (Canonicalize c)) as [E|_];
      [|discriminate].
    destruct (match_atoms Canonicalize true (map Chr q) r) as [m'|] eqn:Em;
      [|discriminate].
    injection H as <-. unfold ci_eq. simpl. rewrite E. f_equal.
    exact (IH _ _ Em).
Qed.

Lemma match_literal_None q s :
  match_atoms Canonicalize true (map Chr q) s = None ->
  ~ ci_occurrence Canonicalize q s 0.
Proof.
  unfold ci_occurrence. cbn [skipn Nat.add].
  revert s. induction q as [|d q IH]; simpl; intros s H; [discriminate|].
  destruct s as [|c r]; simpl; [lia|].
  intros [Hl Hc]. unfold ci_eq in Hc. simpl in Hc. injection Hc as Hc1 Hc2.
  destruct (N.eqb_spec (Canonicalize d) (Canonicalize c)) as [_|Hne];
    [|congruence].
  destruct (match_atoms Canonicalize true (map Chr q) r) eqn:Em; [discriminate|].
  apply (IH _ Em). split; [simpl in Hl; lia|exact Hc2].
Qed.

Lemma ci_eq_length a b :
  ci_eq Canonicalize a b -> List.length a = List.length b.
Proof.
  unfold ci_eq. intros H. apply (f_equal (@List.length _)) in H.
  now rewrite !length_map in H.
Qed.

Lemma ci_occurrence_tail q c r i :
  ci_occurrence Canonicalize q (c :: r) (S i) -> ci_occurrence Canonicalize q r i.
Proof.
  unfold ci_occurrence. simpl. intros [H1 H2]. split; [lia|exact H2].
Qed.

Lemma ci_occurrence_skip q m rest i :
  List.length m <= i ->
  ci_occurrence Canonicalize q (m ++ rest) i -> ci_occurrence Canonicalize q rest (i - List.length m).
Proof.
  unfold ci_occurrence. intros Hi [H1 H2]. rewrite length_app in H1.
  split; [lia|].
  rewrite skipn_app in H2.
  rewrite (skipn_all2 m) in H2 by exact Hi. exact H2.
Qed.

Lemma hit_at_cons p ps i :
  hit_at ps i -> hit_at (p :: ps) (List.length (erase_piece p) + i).
Proof.
  intros (l1 & m & l2 & -> & <-). exists (p :: l1), m, l2.
  split; [reflexivity|]. unfold erase. simpl. now rewrite length_app.
Qed.

Lemma inside_hit_cons p ps i :
  inside_hit ps i -> inside_hit (p :: ps) (List.length (erase_piece p) + i).
Proof.
  intros (l1 & m & l2 & -> & H). exists (p :: l1), m, l2.
  split; [reflexivity|]. unfold erase in *. simpl. rewrite length_app. lia.
Qed.

(** From the scan of the text to its pieces. *)
Lemma scanned_pieces q sub text out :
  q <> [] ->
  (forall m, sub m = mark_open ++ m ++ mark_close) ->
  Scanned (match_atoms Canonicalize true (map Chr q)) sub text out ->
  wraps_scanned_occurrences Canonicalize text q out.
Proof.
  intros Hq Hsub. unfold wraps_scanned_occurrences.
  induction 1 as [E|c r out E _ IH|m rest out Hm E _ IH].
  - exists []. repeat split; [constructor|].
    intros i [Hl _]. simpl in Hl. destruct q; [contradiction|simpl in Hl; lia].
  - destruct IH as (ps & -> & <- & Hok & Hocc).
    exists (Plain c :: ps). repeat split; [now constructor|].
    intros [|i] Hi.
    + now apply match_literal_None in E.
    + apply ci_occurrence_tail in Hi.
      destruct (Hocc _ Hi) as [H|H]; [left|right].
      * exact (hit_at_cons (Plain c) _ _ H).
      * exact (inside_hit_cons (Plain c) _ _ H).
  - destruct IH as (ps & -> & <- & Hok & Hocc).
    exists (Hit m :: ps). split; [|split; [reflexivity|split]].
    + cbn [render flat_map render_piece]. rewrite Hsub, <- !app_assoc.
      reflexivity.
    + constructor; [|exact Hok]. exact (match_literal_Some _ _ _ E).
    + intros i Hi.
      destruct (Nat.eq_dec i 0) as [->|Hi0].
      { left. exists [], m, ps. split; reflexivity. }
      destruct (Nat.lt_ge_cases i (List.length m)) as [Hlt|Hge].
      { right. exists [], m, ps. split; [reflexivity|]. simpl. lia. }
      apply (ci_occurrence_skip _ _ _ _ Hge) in Hi.
      replace i with (List.length (erase_piece (Hit m)) + (i - List.length m))
        by (simpl; lia).
      destruct (Hocc _ Hi) as [H|H]; [left|right].
      * exact (hit_at_cons (Hit m) _ _ H).
      * exact (inside_hit_cons (Hit m) _ _ H).
Qed.

(** [highlightText] always returns a string: the pattern built from the
    escaped query is always a literal pattern. *)
Lemma highlightText_defined text q :
  highlightText Canonicalize text q =
  Some (if negb (truthy text) || negb (truthy q) then text
        else replace Canonicalize (query_regex q) highlight_template text).
Proof.
  unfold highlightText.
  destruct (negb (truthy text) || negb (truthy q)); [reflexivity|].
  now rewrite RegExp_escaped.
Qed.

Lemma highlightText_scan text q :
  q <> [] ->
  exists out, highlightText Canonicalize text q = Some out /\
    wraps_scanned_occurrences Canonicalize text q out.
Proof.
  intros Hq. rewrite highlightText_defined.
  eexists. split; [reflexivity|].
  destruct text as [|c text].
  - exists []. repeat split; [constructor|].
    intros i [Hl _]. simpl in Hl. destruct q; [contradiction|simpl in Hl; lia].
  - destruct q as [|d q]; [contradiction|]. cbn [truthy negb orb].
    apply scanned_pieces with (sub := substitution (query_regex (d :: q))
                                        highlight_template).
    + discriminate.
    + apply highlight_substitution.
    + apply (replace_scanned Canonicalize (query_regex (d :: q))
               highlight_template); [reflexivity|reflexivity|discriminate].
Qed.

End OccurrenceFacts.

Lemma erase_app a b : erase (a ++ b) = erase a ++ erase b.
Proof. apply flat_map_app. Qed.

Lemma render_plain text : render (map Plain text) = text.
Proof. induction text as [|c r IH]; simpl; [reflexivity|]. now f_equal. Qed.

Lemma erase_plain text : erase (map Plain text) = text.
Proof. induction text as [|c r IH]; simpl; [reflexivity|]. now f_equal. Qed.

(** *** Worked instances *)

Example escapeRegExp_price :
  escapeRegExp ascii_canonicalize (lit "$1.50 (each)")
  = lit "\$1\.50 \(each\)".
Proof. reflexivity. Qed.

Example highlightText_mixed_case :
  highlightText ascii_canonicalize (lit "Hello, hE") (lit "he")
  = Some (mark_open ++ lit "He" ++ mark_close ++ lit "llo, "
          ++ mark_open ++ lit "hE" ++ mark_close).
Proof. reflexivity. Qed.

Example highlightText_metacharacters :
  highlightText ascii_canonicalize (lit "cost $1.50 (1x50)") (lit "1.5")
  = Some (lit "cost $" ++ mark_open ++ lit "1.5" ++ mark_close
          ++ lit "0 (1x50)").
Proof. reflexivity. Qed.

(** *** Claims about [highlightText] *)

(** C1 (as amended): for a non-empty query, [highlightText] returns the text
    in which the occurrences of the query (up to case, taken literally) met
    by a left-to-right scan are wrapped in the marker: every occurrence is
    wrapped, or starts inside a wrapped one; every wrapped piece is an
    occurrence; all other code units are kept, in order. *)
Theorem highlightText_wraps_scanned Canonicalize (text q : js_string) :
  q <> [] ->
  exists out, highlightText Canonicalize text q = Some out /\
    wraps_scanned_occurrences Canonicalize text q out.
Proof. apply highlightText_scan. Qed.

Lemma highlightText_wraps_scanned_witness :
  lit "he" <> [] /\
  exists out,
    highlightText ascii_canonicalize (lit "Hello, hE") (lit "he") = Some out /\
    wraps_scanned_occurrences ascii_canonicalize (lit "Hello, hE") (lit "he") out.
Proof.
  split; [discriminate|].
  apply (highlightText_wraps_scanned ascii_canonicalize (lit "Hello, hE") (lit "he")).
  discriminate.
Defined.

(** C1 as stated fails on overlapping occurrences: in ["aaa"] the query
    ["aa"] occurs at indices 0 and 1, the result wraps the first only, and
    no reading of any output wraps both. *)
Lemma highlightText_overlap_counterexample :
  highlightText ascii_canonicalize (lit "aaa") (lit "aa")
  = Some (mark_open ++ lit "aa" ++ mark_close ++ lit "a") /\
  ci_occurrence ascii_canonicalize (lit "aa") (lit "aaa") 1 /\
  ~ wraps_every_occurrence ascii_canonicalize (lit "aaa") (lit "aa")
      (mark_open ++ lit "aa" ++ mark_close ++ lit "a").
Proof.
  split; [reflexivity|]. split; [split; [simpl; lia|reflexivity]|].
  intros (ps & _ & Her & Hok & Hocc).
  destruct (Hocc 0) as (l1 & m & l2 & E & L);
    [split; [simpl; lia|reflexivity]|].
  destruct (Hocc 1) as (l1' & m' & l2' & E' & L');
    [split; [simpl; lia|reflexivity]|].
  assert (Hm : List.length m = 2).
  { rewrite E in Hok. apply Forall_elt in Hok.
    apply ci_eq_length in Hok. exact Hok. }
  rewrite E in E'. apply app_eq_app in E'.
  destruct E' as (l & [[E1 E2]|[E1 E2]]).
  - rewrite E1, erase_app, length_app in L. lia.
  - destruct l as [|x l].
    + rewrite app_nil_r in E1. subst l1'. lia.
    + simpl in E2. injection E2 as <- _.
      rewrite E1, erase_app, length_app in L'.
      change (erase (Hit m :: l)) with (m ++ erase l) in L'.
      rewrite length_app in L'. lia.
Qed.

(** C9: [highlightText] returns the text when the query or the text is
    empty, and for a non-empty query its result is the text with markers
    inserted around pieces that equal the query up to case: with the
    inserted markers deleted, the text comes back as it was. *)
Theorem highlightText_erase Canonicalize :
  (forall text, highlightText Canonicalize text [] = Some text) /\
  (forall q, highlightText Canonicalize [] q = Some []) /\
  (forall text q, q <> [] ->
     exists ps, highlightText Canonicalize text q = Some (render ps) /\
       erase ps = text /\ Forall (hit_ok Canonicalize q) ps).
Proof.
  split; [|split].
  - intros text. rewrite highlightText_defined.
    now destruct text.
  - intros q. now rewrite highlightText_defined.
  - intros text q Hq.
    destruct (highlightText_scan Canonicalize text q Hq)
      as (out & E & ps & -> & Her & Hok & _).
    now exists ps.
Qed.

Lemma highlightText_erase_witness :
  exists ps,
    highlightText ascii_canonicalize (lit "Hello, hE") (lit "he")
    = Some (render ps) /\
    erase ps = lit "Hello, hE" /\ Forall (hit_ok ascii_canonicalize (lit "he")) ps.
Proof.
  apply (proj2 (proj2 (highlightText_erase ascii_canonicalize))).
  discriminate.
Defined.

(** ** The proxy table *)

Section ProxyFacts.

Variable Canonicalize : code_unit -> code_unit.

Lemma match_atoms_literal q s :
  match_atoms Canonicalize false (map Chr q) s
  = if startsWith q s then Some q else None.
Proof.
  revert s. induction q as [|d q IH]; intros s; [reflexivity|].
  destruct s as [|c r]; [reflexivity|].
  cbn [map match_atoms atom_matches same startsWith].
  destruct (N.eqb_spec d c) as [->|_]; [|reflexivity].
  rewrite IH. cbn [andb]. now destruct (startsWith q r).
Qed.

Lemma startsWith_app q rest : startsWith q (q ++ rest) = true.
Proof.
  induction q as [|d q IH]; [reflexivity|].
  simpl. now rewrite N.eqb_refl, IH.
Qed.

Lemma search_anchored re s :
  anchored re = true -> search Canonicalize re false s = None.
Proof.
  intros Ha. induction s as [|c r IH]; simpl; unfold match_here;
    rewrite Ha; cbn [negb andb]; [reflexivity|].
  now rewrite IH.
Qed.

Lemma rewrite_api_cases path :
  ViteConfig.rewrite_api Canonicalize path
  = if startsWith (lit "/api") path then skipn 4 path else path.
Proof.
  unfold ViteConfig.rewrite_api, replace. cbn [replace_from].
  assert (Hm : match_here Canonicalize ViteConfig.re_api true path
               = if startsWith (lit "/api") path then Some (lit "/api") else None).
  { unfold match_here. cbn [ViteConfig.re_api anchored ignoreCase atoms negb andb].
    apply match_atoms_literal. }
  destruct path as [|c r]; cbn [search]; rewrite Hm.
  - reflexivity.
  - destruct (startsWith (lit "/api") (c :: r)); [reflexivity|].
    now rewrite search_anchored.
Qed.

End ProxyFacts.

(** C7: the proxy table has exactly the keys [/api], [/temp_audio] and
    [/temp_video], all with target [http://localhost:8000]; [rewrite] takes
    a leading [/api] off a path and leaves a path that does not start with
    [/api] as it is; only the [/api] entry has a [rewrite]; so a path under
    [/api] is forwarded without that prefix, a path under [/temp_audio] or
    [/temp_video] is forwarded as it is, and no other path is forwarded. *)
Theorem proxy_forwarding Canonicalize :
  map (fun e => (fst e, ViteConfig.target (snd e)))
      (ViteConfig.proxy Canonicalize)
  = [ (lit "/api", lit "http://localhost:8000");
      (lit "/temp_audio", lit "http://localhost:8000");
      (lit "/temp_video", lit "http://localhost:8000") ] /\
  (forall rest, ViteConfig.rewrite_api Canonicalize (lit "/api" ++ rest) = rest) /\
  (forall path, startsWith (lit "/api") path = false ->
     ViteConfig.rewrite_api Canonicalize path = path) /\
  map (fun e => match ViteConfig.rewrite (snd e) with
                | Some _ => true
                | None => false
                end) (ViteConfig.proxy Canonicalize)
  = [true; false; false] /\
  (forall path,
     ViteConfig.forward Canonicalize path
     = if startsWith (lit "/api") path
       then Some (lit "http://localhost:8000", skipn 4 path)
       else if startsWith (lit "/temp_audio") path
               || startsWith (lit "/temp_video") path
       then Some (lit "http://localhost:8000", path)
       else None).
Proof.
  split; [reflexivity|]. split; [|split; [|split; [reflexivity|]]].
  - intros rest. rewrite rewrite_api_cases, startsWith_app. reflexivity.
  - intros path H. now rewrite rewrite_api_cases, H.
  - intros path. unfold ViteConfig.forward, ViteConfig.proxy.
    cbn [find fst snd].
    destruct (startsWith (lit "/api") path) eqn:Ea.
    + cbn [ViteConfig.target ViteConfig.rewrite].
      now rewrite rewrite_api_cases, Ea.
    + destruct (startsWith (lit "/temp_audio") path); [reflexivity|].
      destruct (startsWith (lit "/temp_video") path); reflexivity.
Qed.

Lemma proxy_forwarding_witness :
  ViteConfig.rewrite_api ascii_canonicalize (lit "/temp_audio/a.mp3")
  = lit "/temp_audio/a.mp3" /\
  ViteConfig.rewrite_api ascii_canonicalize (lit "/api/generate_audio")
  = lit "/generate_audio".
Proof.
  split.
  - apply (proj1 (proj2 (proj2 (proxy_forwarding ascii_canonicalize)))).
    reflexivity.
  - apply (proj1 (proj2 (proxy_forwarding ascii_canonicalize))
             (lit "/generate_audio")).
Defined.

(** ** Whitespace and matching, for the search *)

Lemma trimStart_white s : forallb is_white_space s = true -> trimStart s = [].
Proof.
  induction s as [|c r IH]; simpl; [reflexivity|].
  destruct (is_white_space c); simpl; [exact IH|discriminate].
Qed.

Lemma trim_white s : forallb is_white_space s = true -> trim s = [].
Proof. intros H. unfold trim. now rewrite (trimStart_white _ H). Qed.

Lemma in_firstn {A} (x : A) n l : In x (firstn n l) -> In x l.
Proof.
  intros H. rewrite <- (firstn_skipn n l). apply in_or_app. now left.
Qed.

Section ContainsFacts.

Variable Canonicalize : code_unit -> code_unit.

Lemma forallb_combine_map (a b : js_string) :
  List.length a = List.length b ->
  forallb (fun p => N.eqb (Canonicalize (fst p)) (Canonicalize (snd p)))
          (combine a b) = true ->
  map Canonicalize a = map Canonicalize b.
Proof.
  revert b. induction a as [|x a IH]; intros [|y b]; simpl; try discriminate.
  - reflexivity.
  - intros Hl H. apply andb_prop in H. destruct H as [Hxy H].
    apply N.eqb_eq in Hxy. rewrite Hxy. f_equal. apply IH; [lia|exact H].
Qed.

Lemma ci_prefixb_occurrence q s :
  ci_prefixb Canonicalize q s = true -> ci_occurrence Canonicalize q s 0.
Proof.
  unfold ci_prefixb, ci_occurrence, ci_eq. intros H.
  apply andb_prop in H. destruct H as [Hl H]. apply Nat.leb_le in Hl.
  split; [simpl; lia|]. cbn [skipn].
  apply forallb_combine_map; [|exact H].
  rewrite length_firstn. lia.
Qed.

Lemma contains_ci_occurrence q s :
  contains_ci Canonicalize q s = true ->
  exists i, ci_occurrence Canonicalize q s i.
Proof.
  induction s as [|c r IH]; simpl; intros H; apply orb_prop in H;
    destruct H as [H|H]; try discriminate.
  - exists 0. now apply ci_prefixb_occurrence.
  - exists 0. now apply ci_prefixb_occurrence.
  - destruct (IH H) as (i & Hl & Hc). exists (S i).
    split; [simpl; lia|exact Hc].
Qed.

Lemma backend_search_matches corpus q limit :
  Forall (has_ci_match Canonicalize q)
         (resp_results (backend_search Canonicalize corpus q limit)).
Proof.
  apply Forall_forall. intros e He. simpl in He.
  apply in_firstn in He. apply filter_In in He. destruct He as [_ He].
  apply orb_prop in He. destruct He as [He|He]; [left|right];
    now apply contains_ci_occurrence.
Qed.

End ContainsFacts.

(** ** Runs of the component methods *)

Ltac run_method :=
  cbv [App.performSearch App.api_get App.set_results App.set_loading
       ResultItem.generateAudio ResultItem.generateVideo ResultItem.axios_post
       ResultItem.set_audioUrl ResultItem.set_generating
       ResultItem.set_videoUrl ResultItem.set_generatingVideo
       bind ret read write emit await try_catch finally console_error alert
       outcome final trace fst snd].

Section SearchRuns.

Variables protocol hostname : js_string.
Variable http_get : js_string -> js_string -> js_string -> completion SearchResponse.
Variable st : App.state.

Let run := App.performSearch protocol hostname http_get st.
Let answer :=
  http_get (App.API_BASE protocol hostname) (lit "/search") (App.query st).

(** Blank query: the early return. *)
Lemma performSearch_blank :
  truthy (trim (App.query st)) = false ->
  run = (Normal tt, App.mkState (App.query st) [] (App.loading st), []).
Proof. intros H. subst run. run_method. now rewrite H. Qed.

(** The request is answered. *)
Lemma performSearch_answered r :
  truthy (trim (App.query st)) = true -> answer = Normal r ->
  run = (Normal tt, App.mkState (App.query st) (resp_results r) false,
         [Get (App.API_BASE protocol hostname) (lit "/search") (App.query st)]).
Proof.
  intros H Ha. subst run answer. run_method. rewrite H. cbn [negb App.query].
  now rewrite Ha.
Qed.

(** The request is rejected. *)
Lemma performSearch_rejected e :
  truthy (trim (App.query st)) = true -> answer = Throw e ->
  run = (Normal tt, App.mkState (App.query st) [] false,
         [Get (App.API_BASE protocol hostname) (lit "/search") (App.query st);
          ConsoleError App.msg_search_failed e]).
Proof.
  intros H Ha. subst run answer. run_method. rewrite H. cbn [negb App.query].
  now rewrite Ha.
Qed.

End SearchRuns.

Section ClipRuns.

Variable p : ResultItem.props.
Variable http_post : js_string -> ClipRequest -> completion ClipResponse.
Variable st : ResultItem.state.

Let body := ResultItem.clip_body p.

Lemma generateAudio_run :
  ResultItem.generateAudio p http_post st =
  match http_post (lit "/api/generate_audio") body with
  | Normal r =>
      if success r then
        (Normal tt,
         ResultItem.mkState (audio_url r) false (ResultItem.videoUrl st)
           (ResultItem.generatingVideo st),
         [Post (lit "/api/generate_audio") body])
      else
        (Normal tt,
         ResultItem.mkState (ResultItem.audioUrl st) false
           (ResultItem.videoUrl st) (ResultItem.generatingVideo st),
         [Post (lit "/api/generate_audio") body;
          Alert (or_else (message r) ResultItem.msg_audio_failed)])
  | Throw e =>
      (Normal tt,
       ResultItem.mkState (ResultItem.audioUrl st) false
         (ResultItem.videoUrl st) (ResultItem.generatingVideo st),
       [Post (lit "/api/generate_audio") body;
        ConsoleError ResultItem.msg_audio_failed_log e;
        Alert ResultItem.msg_audio_retry])
  end.
Proof.
  subst body. run_method.
  destruct (http_post (lit "/api/generate_audio") (ResultItem.clip_body p))
    as [r|e]; [destruct (success r)|]; reflexivity.
Qed.

Lemma generateVideo_run :
  ResultItem.generateVideo p http_post st =
  match http_post (lit "/api/generate_video") body with
  | Normal r =>
      if success r then
        (Normal tt,
         ResultItem.mkState (ResultItem.audioUrl st) (ResultItem.generating st)
           (video_url r) false,
         [Post (lit "/api/generate_video") body])
      else
        (Normal tt,
         ResultItem.mkState (ResultItem.audioUrl st) (ResultItem.generating st)
           (ResultItem.videoUrl st) false,
         [Post (lit "/api/generate_video") body;
          Alert (or_else (message r) ResultItem.msg_video_failed)])
  | Throw e =>
      (Normal tt,
       ResultItem.mkState (ResultItem.audioUrl st) (ResultItem.generating st)
         (ResultItem.videoUrl st) false,
       [Post (lit "/api/generate_video") body;
        ConsoleError ResultItem.msg_video_failed_log e;
        Alert ResultItem.msg_video_retry])
  end.
Proof.
  subst body. run_method.
  destruct (http_post (lit "/api/generate_video") (ResultItem.clip_body p))
    as [r|e]; [destruct (success r)|]; reflexivity.
Qed.

End ClipRuns.

(** *** Claims about the component methods *)

(** C3: with the backend answering as the spec describes it, after
    [performSearch] the results are empty, or they are entries whose Chinese
    or English text holds a match of the query up to case; they are empty
    when the query is empty or all white space, and when the request is
    rejected. *)
Theorem performSearch_results Canonicalize corpus protocol hostname http_get
    (st : App.state) :
  served_by_backend Canonicalize corpus http_get ->
  let st' := final (App.performSearch protocol hostname http_get st) in
  (App.results st' = [] \/
   (App.results st' <> [] /\
    Forall (has_ci_match Canonicalize (App.query st)) (App.results st'))) /\
  (forallb is_white_space (App.query st) = true -> App.results st' = []) /\
  (forall e,
     http_get (App.API_BASE protocol hostname) (lit "/search") (App.query st)
     = Throw e ->
     App.results st' = []).
Proof.
  intros Hserved. cbv zeta.
  destruct (truthy (trim (App.query st))) eqn:Hq.
  - pose proof (Hserved (App.API_BASE protocol hostname) (lit "/search")
                  (App.query st)) as Hs.
    destruct (http_get (App.API_BASE protocol hostname) (lit "/search")
                (App.query st)) as [r|e] eqn:Ha.
    + rewrite (performSearch_answered protocol hostname http_get st r Hq Ha).
      unfold final. cbn [fst snd App.results].
      destruct Hs as (limit & ->).
      split; [|split].
      * pose proof (backend_search_matches Canonicalize corpus
                      (App.query st) limit) as Hm.
        destruct (resp_results
                    (backend_search Canonicalize corpus (App.query st) limit));
          [now left|right]. split; [discriminate|exact Hm].
      * intros Hw. rewrite (trim_white _ Hw) in Hq. discriminate.
      * discriminate.
    + rewrite (performSearch_rejected protocol hostname http_get st e Hq Ha).
      unfold final. cbn [fst snd App.results]. now repeat split; [left|..].
  - rewrite (performSearch_blank protocol hostname http_get st Hq).
    unfold final. cbn [fst snd App.results]. now repeat split; [left|..].
Qed.

(** C4 (as amended): [generateAudio] and [generateVideo] raise an alert on
    an answer with [success] false (the answer's message, or a fixed
    message when it has none) and on a rejected request (a fixed message,
    after logging the error to the console); [performSearch] raises none:
    on a rejected request it logs the error to the console and empties the
    results. *)
Theorem failures_surface p http_post (ist : ResultItem.state)
    protocol hostname http_get (ast : App.state) :
  let body := ResultItem.clip_body p in
  (forall r, http_post (lit "/api/generate_audio") body = Normal r ->
     success r = false ->
     trace (ResultItem.generateAudio p http_post ist)
     = [Post (lit "/api/generate_audio") body;
        Alert (or_else (message r) ResultItem.msg_audio_failed)]) /\
  (forall e, http_post (lit "/api/generate_audio") body = Throw e ->
     trace (ResultItem.generateAudio p http_post ist)
     = [Post (lit "/api/generate_audio") body;
        ConsoleError ResultItem.msg_audio_failed_log e;
        Alert ResultItem.msg_audio_retry]) /\
  (forall r, http_post (lit "/api/generate_video") body = Normal r ->
     success r = false ->
     trace (ResultItem.generateVideo p http_post ist)
     = [Post (lit "/api/generate_video") body;
        Alert (or_else (message r) ResultItem.msg_video_failed)]) /\
  (forall e, http_post (lit "/api/generate_video") body = Throw e ->
     trace (ResultItem.generateVideo p http_post ist)
     = [Post (lit "/api/generate_video") body;
        ConsoleError ResultItem.msg_video_failed_log e;
        Alert ResultItem.msg_video_retry]) /\
  (forall e, truthy (trim (App.query ast)) = true ->
     http_get (App.API_BASE protocol hostname) (lit "/search") (App.query ast)
     = Throw e ->
     trace (App.performSearch protocol hostname http_get ast)
     = [Get (App.API_BASE protocol hostname) (lit "/search") (App.query ast);
        ConsoleError App.msg_search_failed e] /\
     App.results (final (App.performSearch protocol hostname http_get ast))
     = []).
Proof.
  cbv zeta. split; [|split; [|split; [|split]]].
  - intros r Hr Hs. now rewrite generateAudio_run, Hr, Hs.
  - intros e He. now rewrite generateAudio_run, He.
  - intros r Hr Hs. now rewrite generateVideo_run, Hr, Hs.
  - intros e He. now rewrite generateVideo_run, He.
  - intros e Hq He.
    now rewrite (performSearch_rejected protocol hostname http_get ast e Hq He).
Qed.

Lemma performSearch_results_witness :
  served_by_backend ascii_canonicalize sample_corpus sample_http_get /\
  Forall (has_ci_match ascii_canonicalize (lit "hello"))
    (App.results
       (final (App.performSearch (lit "http:") (lit "localhost")
                 sample_http_get (App.mkState (lit "hello") [] true)))).
Proof.
  assert (Hs : served_by_backend ascii_canonicalize sample_corpus
                 sample_http_get).
  { intros base url q. exists 50. reflexivity. }
  split; [exact Hs|].
  destruct (proj1 (performSearch_results ascii_canonicalize sample_corpus
                     (lit "http:") (lit "localhost") sample_http_get
                     (App.mkState (lit "hello") [] true) Hs))
    as [E|[_ H]].
  - rewrite E. constructor.
  - exact H.
Defined.

Lemma failures_surface_witness :
  trace (ResultItem.generateAudio sample_props failing_http_post idle_item)
  = [Post (lit "/api/generate_audio") (ResultItem.clip_body sample_props);
     ConsoleError ResultItem.msg_audio_failed_log NetworkError;
     Alert ResultItem.msg_audio_retry].
Proof.
  apply (proj1 (proj2 (failures_surface sample_props failing_http_post
                         idle_item (lit "http:") (lit "localhost")
                         failing_http_get (App.mkState (lit "hello") [] false)))).
  reflexivity.
Defined.

(** C4 as stated fails for [performSearch]: its request is rejected and the
    run raises no alert. *)
Lemma performSearch_no_alert_counterexample :
  trace (App.performSearch (lit "http:") (lit "localhost") failing_http_get
           (App.mkState (lit "hello") [] false))
  = [Get (lit "http://localhost:18000") (lit "/search") (lit "hello");
     ConsoleError App.msg_search_failed NetworkError] /\
  ~ (exists msg,
       In (Alert msg)
          (trace (App.performSearch (lit "http:") (lit "localhost")
                    failing_http_get (App.mkState (lit "hello") [] false)))).
Proof.
  split; [reflexivity|].
  intros (msg & [H|[H|[]]]); discriminate H.
Qed.

(** C6: [generateAudio] posts to [/api/generate_audio] and [generateVideo]
    to [/api/generate_video] the body made of the record's [season],
    [episode], [start_time] and [end_time], and nothing else of the run is
    a request; on an answer with [success] true, [audioUrl] (resp.
    [videoUrl]) becomes the answer's [audio_url] (resp. [video_url]). *)
Theorem clip_requests p http_post (st : ResultItem.state) :
  let r0 := ResultItem.result p in
  let body :=
    mkClipRequest (season r0) (episode r0) (start_time r0) (end_time r0) in
  (exists rest,
     trace (ResultItem.generateAudio p http_post st)
     = Post (lit "/api/generate_audio") body :: rest /\
     filter is_request rest = []) /\
  (forall r, http_post (lit "/api/generate_audio") body = Normal r ->
     success r = true ->
     ResultItem.audioUrl (final (ResultItem.generateAudio p http_post st))
     = audio_url r) /\
  (exists rest,
     trace (ResultItem.generateVideo p http_post st)
     = Post (lit "/api/generate_video") body :: rest /\
     filter is_request rest = []) /\
  (forall r, http_post (lit "/api/generate_video") body = Normal r ->
     success r = true ->
     ResultItem.videoUrl (final (ResultItem.generateVideo p http_post st))
     = video_url r).
Proof.
  cbv zeta.
  change (mkClipRequest (season (ResultItem.result p))
            (episode (ResultItem.result p)) (start_time (ResultItem.result p))
            (end_time (ResultItem.result p)))
    with (ResultItem.clip_body p).
  rewrite generateAudio_run, generateVideo_run.
  split; [|split; [|split]].
  - destruct (http_post (lit "/api/generate_audio") (ResultItem.clip_body p))
      as [r|e]; [destruct (success r)|]; eexists; split; reflexivity.
  - intros r -> ->. reflexivity.
  - destruct (http_post (lit "/api/generate_video") (ResultItem.clip_body p))
      as [r|e]; [destruct (success r)|]; eexists; split; reflexivity.
  - intros r -> ->. reflexivity.
Qed.

Lemma clip_requests_witness :
  ResultItem.audioUrl
    (final (ResultItem.generateAudio sample_props sample_http_post idle_item))
  = lit "/temp_audio/clip.mp3".
Proof.
  apply (proj1 (proj2 (clip_requests sample_props sample_http_post idle_item))
           (mkClipResponse true (lit "/temp_audio/clip.mp3")
              (lit "/temp_video/clip.mp4") None));
    reflexivity.
Defined.

(** C8: a run of [performSearch], [generateAudio] or [generateVideo] makes
    at most one request, and no event after the first of the run is a
    request: neither a rejection nor an answer without success is followed
    by another request. *)
Theorem single_request :
  (forall protocol hostname http_get (st : App.state),
     let t := trace (App.performSearch protocol hostname http_get st) in
     List.length (filter is_request t) <= 1 /\ filter is_request (tl t) = []) /\
  (forall p http_post (st : ResultItem.state),
     let t := trace (ResultItem.generateAudio p http_post st) in
     List.length (filter is_request t) = 1 /\ filter is_request (tl t) = []) /\
  (forall p http_post (st : ResultItem.state),
     let t := trace (ResultItem.generateVideo p http_post st) in
     List.length (filter is_request t) = 1 /\ filter is_request (tl t) = []).
Proof.
  split; [|split].
  - intros protocol hostname http_get st. cbv zeta.
    destruct (truthy (trim (App.query st))) eqn:Hq.
    + destruct (http_get (App.API_BASE protocol hostname) (lit "/search")
                  (App.query st)) as [r|e] eqn:Ha.
      * rewrite (performSearch_answered protocol hostname http_get st r Hq Ha).
        split; [simpl; lia|reflexivity].
      * rewrite (performSearch_rejected protocol hostname http_get st e Hq Ha).
        split; [simpl; lia|reflexivity].
    + rewrite (performSearch_blank protocol hostname http_get st Hq).
      split; [simpl; lia|reflexivity].
  - intros p http_post st. cbv zeta. rewrite generateAudio_run.
    destruct (http_post (lit "/api/generate_audio") (ResultItem.clip_body p))
      as [r|e]; [destruct (success r)|]; split; reflexivity.
  - intros p http_post st. cbv zeta. rewrite generateVideo_run.
    destruct (http_post (lit "/api/generate_video") (ResultItem.clip_body p))
      as [r|e]; [destruct (success r)|]; split; reflexivity.
Qed.

(** C10: every run ends normally with its busy flag off: [loading] after
    [performSearch] on a query that is not blank, whether the request was
    answered or rejected; [generating] after [generateAudio] and
    [generatingVideo] after [generateVideo], whether the answer had
    [success] true or false or the request was rejected. *)
Theorem busy_flags_reset :
  (forall protocol hostname http_get (st : App.state),
     truthy (trim (App.query st)) = true ->
     let run := App.performSearch protocol hostname http_get st in
     outcome run = Normal tt /\ App.loading (final run) = false) /\
  (forall p http_post (st : ResultItem.state),
     let run := ResultItem.generateAudio p http_post st in
     outcome run = Normal tt /\ ResultItem.generating (final run) = false) /\
  (forall p http_post (st : ResultItem.state),
     let run := ResultItem.generateVideo p http_post st in
     outcome run = Normal tt /\ ResultItem.generatingVideo (final run) = false).
Proof.
  split; [|split].
  - intros protocol hostname http_get st Hq. cbv zeta.
    destruct (http_get (App.API_BASE protocol hostname) (lit "/search")
                (App.query st)) as [r|e] eqn:Ha.
    + rewrite (performSearch_answered protocol hostname http_get st r Hq Ha).
      split; reflexivity.
    + rewrite (performSearch_rejected protocol hostname http_get st e Hq Ha).
      split; reflexivity.
  - intros p http_post st. cbv zeta. rewrite generateAudio_run.
    destruct (http_post (lit "/api/generate_audio") (ResultItem.clip_body p))
      as [r|e]; [destruct (success r)|]; split; reflexivity.
  - intros p http_post st. cbv zeta. rewrite generateVideo_run.
    destruct (http_post (lit "/api/generate_video") (ResultItem.clip_body p))
      as [r|e]; [destruct (success r)|]; split; reflexivity.
Qed.

Lemma busy_flags_reset_witness :
  App.loading
    (final (App.performSearch (lit "http:") (lit "localhost") failing_http_get
              (App.mkState (lit "hello") [] true)))
  = false.
Proof.
  apply (proj1 busy_flags_reset (lit "http:") (lit "localhost")
           failing_http_get (App.mkState (lit "hello") [] true)).
  reflexivity.
Defined.

(** * Part III: further facts about the code *)

(** ** escapeRegExp *)

Lemma parse_atoms_escaped_end q :
  parse_atoms (flat_map escape_unit q) = Some (map Chr q, []).
Proof.
  induction q as [|c q IH]; [reflexivity|].
  cbn [flat_map map]. unfold escape_unit at 1.
  destruct (is_syntax c) eqn:Ec.
  - cbn [app parse_atoms]. rewrite N.eqb_refl, Ec, IH. reflexivity.
  - cbn [app parse_atoms].
    destruct (N.eqb_spec c (cu "\")) as [->|_];
      [rewrite backslash_is_syntax in Ec; discriminate|].
    destruct (N.eqb_spec c (cu ")")) as [->|_];
      [rewrite rparen_is_syntax in Ec; discriminate|].
    rewrite Ec, IH. reflexivity.
Qed.



Lemma map_Chr_inj q1 q2 : map Chr q1 = map Chr q2 -> q1 = q2.
Proof.
  revert q2. induction q1 as [|c q1 IH]; intros [|d q2] H; try discriminate.
  - reflexivity.
  - simpl in H. injection H as -> H. f_equal. now apply IH.
Qed.



(** X2: [escapeRegExp] loses nothing: two queries with the same escaped
    form are the same query. *)
Theorem escapeRegExp_injective Canonicalize (q1 q2 : js_string) :
  escapeRegExp Canonicalize q1 = escapeRegExp Canonicalize q2 -> q1 = q2.
Proof.
  rewrite !escapeRegExp_flat_map. intros H.
  pose proof (parse_atoms_escaped_end q1) as H1.
  rewrite H, parse_atoms_escaped_end in H1.
  injection H1 as H1. symmetry. now apply map_Chr_inj.
Qed.

Lemma escapeRegExp_injective_witness :
  lit "a.b" = lit "a.b".
Proof.
  apply (escapeRegExp_injective ascii_canonicalize (lit "a.b") (lit "a.b")).
  reflexivity.
Defined.



(** ** formatContext *)

Section ContextFacts.

Variable Canonicalize : code_unit -> code_unit.



End ContextFacts.







(** ** highlightText: when nothing is wrapped, and the case of the query *)

Lemma render_no_hit ps : forallb (fun p => negb (is_hit p)) ps = true ->
  render ps = erase ps.
Proof.
  induction ps as [|[c|m] ps IH]; simpl; intros H; try discriminate.
  - reflexivity.
  - f_equal. now apply IH.
Qed.

Lemma render_length ps :
  List.length (erase ps) <= List.length (render ps).
Proof.
  induction ps as [|[c|m] ps IH]; simpl; [lia|lia|].
  rewrite !length_app. lia.
Qed.

Lemma render_hit_longer l1 m l2 :
  List.length (erase (l1 ++ Hit m :: l2))
  < List.length (render (l1 ++ Hit m :: l2)).
Proof.
  unfold render, erase. rewrite !flat_map_app. cbn [flat_map].
  rewrite !length_app. cbn [render_piece erase_piece].
  rewrite !length_app.
  pose proof (render_length l1). pose proof (render_length l2).
  unfold render, erase in *.
  assert (0 < List.length mark_open) by (vm_compute; lia). lia.
Qed.

Lemma no_hit_or_split ps :
  forallb (fun p => negb (is_hit p)) ps = true \/
  exists l1 m l2, ps = l1 ++ Hit m :: l2.
Proof.
  induction ps as [|[c|m] ps [IH|(l1 & m' & l2 & ->)]].
  - now left.
  - now left.
  - right. now exists (Plain c :: l1), m', l2.
  - right. now exists [], m, ps.
  - right. now exists [], m, (l1 ++ Hit m' :: l2).
Qed.

Section HitFacts.

Variable Canonicalize : code_unit -> code_unit.

Lemma hit_is_occurrence q l1 m l2 :
  ci_eq Canonicalize m q ->
  ci_occurrence Canonicalize q (erase (l1 ++ Hit m :: l2))
    (List.length (erase l1)).
Proof.
  intros Hm. pose proof (ci_eq_length Canonicalize _ _ Hm) as Hl.
  unfold ci_occurrence. rewrite erase_app.
  change (erase (Hit m :: l2)) with (m ++ erase l2).
  split.
  - rewrite !length_app. lia.
  - rewrite skipn_app, skipn_all, Nat.sub_diag. cbn [app skipn].
    rewrite <- Hl, firstn_app, firstn_all, Nat.sub_diag. cbn [firstn].
    now rewrite app_nil_r.
Qed.

Lemma match_atoms_ci_ext q1 q2 s :
  ci_eq Canonicalize q1 q2 ->
  match_atoms Canonicalize true (map Chr q1) s
  = match_atoms Canonicalize true (map Chr q2) s.
Proof.
  unfold ci_eq. revert q2 s.
  induction q1 as [|d1 q1 IH]; intros [|d2 q2] s H; try discriminate.
  - reflexivity.
  - simpl in H. injection H as Hd H.
    cbn [map match_atoms atom_matches same]. rewrite Hd.
    destruct s as [|c r]; [reflexivity|].
    now rewrite (IH q2 r H).
Qed.

Lemma search_ext re1 re2 b s :
  (forall b' s', match_here Canonicalize re1 b' s'
                 = match_here Canonicalize re2 b' s') ->
  search Canonicalize re1 b s = search Canonicalize re2 b s.
Proof.
  intros H. revert b. induction s as [|c r IH]; intros b; simpl; rewrite H.
  - reflexivity.
  - now rewrite IH.
Qed.

Lemma replace_from_ext fuel re1 re2 tpl b s :
  (forall b' s', match_here Canonicalize re1 b' s'
                 = match_here Canonicalize re2 b' s') ->
  capture re1 = capture re2 -> global re1 = global re2 ->
  replace_from Canonicalize fuel re1 tpl b s
  = replace_from Canonicalize fuel re2 tpl b s.
Proof.
  intros H Hc Hg. revert b s.
  induction fuel as [|fuel IH]; intros b s; [reflexivity|].
  simpl. rewrite (search_ext re1 re2 b s H).
  destruct (search Canonicalize re2 b s) as [[p m]|]; [|reflexivity].
  unfold substitution. rewrite Hc, Hg.
  destruct (negb (global re2)); [reflexivity|].
  destruct m as [|c0 m0].
  - destruct (skipn (p + List.length (@nil code_unit)) s); [reflexivity|].
    now rewrite IH.
  - now rewrite IH.
Qed.

End HitFacts.

(** X5: for a non-empty query, [highlightText] returns the text as it is
    exactly when the query does not occur in it (up to case); in particular
    markup already in the text is passed through untouched. *)
Theorem highlightText_unchanged_iff Canonicalize (text q : js_string) :
  q <> [] ->
  (highlightText Canonicalize text q = Some text <->
   forall i, ~ ci_occurrence Canonicalize q text i).
Proof.
  intros Hq.
  destruct (highlightText_scan Canonicalize text q Hq)
    as (out & E & ps & -> & Her & Hok & Hocc).
  rewrite E. split.
  - intros H i Hi. injection H as H.
    assert (Hs : exists l1 m l2, ps = l1 ++ Hit m :: l2).
    { destruct (Hocc i Hi) as [(l1 & m & l2 & -> & _)|(l1 & m & l2 & -> & _)];
        eauto. }
    destruct Hs as (l1 & m & l2 & ->).
    pose proof (render_hit_longer l1 m l2) as Hlt.
    rewrite Her, H in Hlt. lia.
  - intros Hno. f_equal. rewrite <- Her.
    destruct (no_hit_or_split ps) as [H|(l1 & m & l2 & ->)].
    + now apply render_no_hit.
    + exfalso. apply (Hno (List.length (erase l1))). rewrite <- Her.
      apply hit_is_occurrence.
      apply Forall_elt in Hok. exact Hok.
Qed.

Lemma highlightText_unchanged_iff_witness :
  highlightText ascii_canonicalize (lit "<b>Hi</b>") (lit "xyz")
  = Some (lit "<b>Hi</b>") <->
  forall i, ~ ci_occurrence ascii_canonicalize (lit "xyz") (lit "<b>Hi</b>") i.
Proof.
  apply (highlightText_unchanged_iff ascii_canonicalize (lit "<b>Hi</b>")
           (lit "xyz")).
  discriminate.
Defined.

(** X6: the result of [highlightText] depends on the query only up to
    case: two queries that are equal up to case give the same output, with
    the casing of the text. *)
Theorem highlightText_query_case Canonicalize (text q1 q2 : js_string) :
  ci_eq Canonicalize q1 q2 ->
  highlightText Canonicalize text q1 = highlightText Canonicalize text q2.
Proof.
  intros H. rewrite !highlightText_defined.
  assert (Ht : truthy q1 = truthy q2).
  { apply ci_eq_length in H. destruct q1, q2; try discriminate; reflexivity. }
  rewrite Ht. destruct (negb (truthy text) || negb (truthy q2)); [reflexivity|].
  f_equal. unfold replace. apply replace_from_ext; try reflexivity.
  intros b s. unfold match_here.
  cbn [query_regex anchored ignoreCase atoms andb].
  now apply match_atoms_ci_ext.
Qed.

Lemma highlightText_query_case_witness :
  highlightText ascii_canonicalize (lit "Hello, hE") (lit "HE")
  = highlightText ascii_canonicalize (lit "Hello, hE") (lit "he").
Proof.
  apply (highlightText_query_case ascii_canonicalize (lit "Hello, hE")
           (lit "HE") (lit "he")).
  reflexivity.
Defined.

(** ** formatTime: which part of the input is shown *)

Lemma split_hd sep s : exists fs, split sep s = before_any [sep] s :: fs.
Proof.
  induction s as [|c r (fs & IH)]; [now exists []|].
  cbn [split before_any existsb]. rewrite orb_false_r.
  destruct (N.eqb c sep); [now eexists|].
  rewrite IH. now eexists.
Qed.

Lemma before_any_twice a b s :
  before_any [b] (before_any [a] s) = before_any [a; b] s.
Proof.
  induction s as [|c r IH]; [reflexivity|].
  cbn [before_any existsb]. rewrite !orb_false_r.
  destruct (N.eqb c a); [reflexivity|].
  cbn [before_any existsb orb]. rewrite orb_false_r.
  destruct (N.eqb c b); [reflexivity|]. now rewrite IH.
Qed.

(** X7: on an input with at least two [':'], [formatTime] shows the second
    field, a [':'], and the third field up to its first ['.']: the first
    field (the hours), any fraction and any later field are dropped. *)
Theorem formatTime_fields (h mm rest : js_string) :
  ~ In (cu ":") h -> ~ In (cu ":") mm ->
  formatTime (h ++ lit ":" ++ mm ++ lit ":" ++ rest)
  = Normal (mm ++ lit ":" ++ before_any [cu ":"; cu "."] rest).
Proof.
  intros Hh Hm. unfold formatTime.
  change (lit ":") with [cu ":"]. cbn [app].
  rewrite (split_app_sep _ _ _ Hh), (split_app_sep _ _ _ Hm).
  destruct (split_hd (cu ":") rest) as (fs & ->).
  cbn [List.length Nat.leb index nth_error interpolate].
  destruct (split_hd (cu ".") (before_any [cu ":"] rest)) as (fs' & ->).
  cbn [nth_error interpolate]. now rewrite before_any_twice.
Qed.

Lemma formatTime_fields_witness :
  formatTime (lit "1:03:11") = Normal (lit "03:11") /\
  formatTime (lit "12:03:11.39:x") = Normal (lit "03:11").
Proof.
  split.
  - apply (formatTime_fields (lit "1") (lit "03") (lit "11"));
      simpl; intros H; repeat (destruct H as [H|H]; [discriminate H|]); exact H.
  - apply (formatTime_fields (lit "12") (lit "03") (lit "11.39:x"));
      simpl; intros H; repeat (destruct H as [H|H]; [discriminate H|]); exact H.
Defined.

(** ** generateAudio and generateVideo: what they leave alone, and the
    buttons afterwards *)

(** X8: [generateAudio] never touches [videoUrl] and [generatingVideo], and
    [generateVideo] never touches [audioUrl] and [generating]; a run that
    is not answered with [success] true leaves the URL it is about as it
    was. *)
Theorem generate_frame p http_post (st : ResultItem.state) :
  let a := final (ResultItem.generateAudio p http_post st) in
  let v := final (ResultItem.generateVideo p http_post st) in
  (ResultItem.videoUrl a = ResultItem.videoUrl st /\
   ResultItem.generatingVideo a = ResultItem.generatingVideo st) /\
  (ResultItem.audioUrl v = ResultItem.audioUrl st /\
   ResultItem.generating v = ResultItem.generating st) /\
  ((forall r, http_post (lit "/api/generate_audio") (ResultItem.clip_body p)
              = Normal r -> success r = false) ->
   ResultItem.audioUrl a = ResultItem.audioUrl st) /\
  ((forall r, http_post (lit "/api/generate_video") (ResultItem.clip_body p)
              = Normal r -> success r = false) ->
   ResultItem.videoUrl v = ResultItem.videoUrl st).
Proof.
  cbv zeta. rewrite generateAudio_run, generateVideo_run.
  split; [|split; [|split]].
  - destruct (http_post (lit "/api/generate_audio") (ResultItem.clip_body p))
      as [r|e]; [destruct (success r)|]; split; reflexivity.
  - destruct (http_post (lit "/api/generate_video") (ResultItem.clip_body p))
      as [r|e]; [destruct (success r)|]; split; reflexivity.
  - destruct (http_post (lit "/api/generate_audio") (ResultItem.clip_body p))
      as [r|e]; [|reflexivity].
    intros H. now rewrite (H r eq_refl).
  - destruct (http_post (lit "/api/generate_video") (ResultItem.clip_body p))
      as [r|e]; [|reflexivity].
    intros H. now rewrite (H r eq_refl).
Qed.

Lemma generate_frame_witness :
  ResultItem.audioUrl
    (final (ResultItem.generateAudio sample_props failing_http_post
              (ResultItem.mkState (lit "/temp_audio/old.mp3") false [] false)))
  = lit "/temp_audio/old.mp3".
Proof.
  apply (proj1 (proj2 (proj2
           (generate_frame sample_props failing_http_post
              (ResultItem.mkState (lit "/temp_audio/old.mp3") false [] false))))).
  intros r H. discriminate H.
Defined.

(** X9: after [generateAudio] the disabled "generating" button is gone and
    exactly one of the generate button and the audio player is on screen;
    started with no audio URL, the player is there exactly when the request
    was answered with [success] true and a non-empty [audio_url], and
    otherwise the generate button is back.  The same holds for video. *)
Theorem clip_view_after p http_post (st : ResultItem.state) :
  let a := final (ResultItem.generateAudio p http_post st) in
  let v := final (ResultItem.generateVideo p http_post st) in
  (ResultItemView.shows_generating_audio a = false /\
   ResultItemView.shows_generate_audio a
   = negb (ResultItemView.shows_audio_player a)) /\
  (ResultItemView.shows_generating_video v = false /\
   ResultItemView.shows_generate_video v
   = negb (ResultItemView.shows_video_player v)) /\
  (ResultItem.audioUrl st = [] ->
   ResultItemView.shows_audio_player a
   = match http_post (lit "/api/generate_audio") (ResultItem.clip_body p) with
     | Normal r => success r && truthy (audio_url r)
     | Throw _ => false
     end) /\
  (ResultItem.videoUrl st = [] ->
   ResultItemView.shows_video_player v
   = match http_post (lit "/api/generate_video") (ResultItem.clip_body p) with
     | Normal r => success r && truthy (video_url r)
     | Throw _ => false
     end).
Proof.
  cbv zeta. rewrite generateAudio_run, generateVideo_run.
  unfold ResultItemView.shows_generating_audio,
    ResultItemView.shows_generate_audio, ResultItemView.shows_audio_player,
    ResultItemView.shows_generating_video,
    ResultItemView.shows_generate_video, ResultItemView.shows_video_player.
  split; [|split; [|split]].
  - destruct (http_post (lit "/api/generate_audio") (ResultItem.clip_body p))
      as [r|e]; [destruct (success r)|]; unfold final; cbn;
      split; try reflexivity; now rewrite andb_true_r.
  - destruct (http_post (lit "/api/generate_video") (ResultItem.clip_body p))
      as [r|e]; [destruct (success r)|]; unfold final; cbn;
      split; try reflexivity; now rewrite andb_true_r.
  - intros E.
    destruct (http_post (lit "/api/generate_audio") (ResultItem.clip_body p))
      as [r|e]; [destruct (success r)|]; unfold final; cbn;
      try reflexivity; now rewrite E.
  - intros E.
    destruct (http_post (lit "/api/generate_video") (ResultItem.clip_body p))
      as [r|e]; [destruct (success r)|]; unfold final; cbn;
      try reflexivity; now rewrite E.
Qed.

Lemma clip_view_after_witness :
  ResultItemView.shows_audio_player
    (final (ResultItem.generateAudio sample_props failing_http_post idle_item))
  = false.
Proof.
  apply (proj1 (proj2 (proj2
           (clip_view_after sample_props failing_http_post idle_item)))).
  reflexivity.
Defined.

(** ** performSearch: when a request is made, and the screen afterwards *)

Lemma trimStart_nil_white s :
  trimStart s = [] -> forallb is_white_space s = true.
Proof.
  induction s as [|c r IH]; [reflexivity|]. simpl.
  destruct (is_white_space c); [exact IH|discriminate].
Qed.

Lemma trimStart_all_white_nil s :
  forallb is_white_space (trimStart s) = true -> trimStart s = [].
Proof.
  induction s as [|c r IH]; [reflexivity|]. simpl.
  destruct (is_white_space c) eqn:E; [exact IH|].
  simpl. rewrite E. discriminate.
Qed.

Lemma forallb_rev {A} (f : A -> bool) l : forallb f (rev l) = forallb f l.
Proof.
  apply Bool.eq_iff_eq_true. rewrite !forallb_forall.
  split; intros H x Hx; apply H;
    [now rewrite <- in_rev|now rewrite in_rev].
Qed.

Lemma trim_nil_white s : trim s = [] -> forallb is_white_space s = true.
Proof.
  unfold trim. intros H. apply (f_equal (@rev _)) in H.
  rewrite rev_involutive in H. simpl in H.
  apply trimStart_nil_white in H. rewrite forallb_rev in H.
  apply trimStart_all_white_nil in H. now apply trimStart_nil_white.
Qed.

Lemma blank_iff_white s :
  truthy (trim s) = negb (forallb is_white_space s).
Proof.
  destruct (forallb is_white_space s) eqn:E.
  - now rewrite (trim_white _ E).
  - destruct (trim s) eqn:Et; [|reflexivity].
    apply trim_nil_white in Et. congruence.
Qed.

(** X10: [performSearch] sends a request exactly when the query holds a
    code unit that is not white space.  A query of white space only gives
    no request at all and changes nothing but the results, which become
    empty; any other query gives one [GET] of [/search] at [API_BASE] whose
    parameter is the query as typed, white space around it included. *)
Theorem performSearch_request_iff protocol hostname http_get (st : App.state) :
  let run := App.performSearch protocol hostname http_get st in
  (forallb is_white_space (App.query st) = true ->
   run = (Normal tt, App.mkState (App.query st) [] (App.loading st), [])) /\
  (forallb is_white_space (App.query st) = false ->
   filter is_request (trace run)
   = [Get (App.API_BASE protocol hostname) (lit "/search") (App.query st)]) /\
  (trace run = [] <-> forallb is_white_space (App.query st) = true).
Proof.
  cbv zeta. pose proof (blank_iff_white (App.query st)) as Hb.
  destruct (forallb is_white_space (App.query st)) eqn:Hw; cbn [negb] in Hb.
  - rewrite (performSearch_blank protocol hostname http_get st Hb).
    split; [reflexivity|]. split; [discriminate|]. now split.
  - split; [discriminate|].
    destruct (http_get (App.API_BASE protocol hostname) (lit "/search")
                (App.query st)) as [r|e] eqn:Ha.
    + rewrite (performSearch_answered protocol hostname http_get st r Hb Ha).
      split; [reflexivity|]. split; discriminate.
    + rewrite (performSearch_rejected protocol hostname http_get st e Hb Ha).
      split; [reflexivity|]. split; discriminate.
Qed.

Lemma performSearch_request_iff_witness :
  filter is_request
    (trace (App.performSearch (lit "http:") (lit "localhost") failing_http_get
              (App.mkState (lit " hi ") [] false)))
  = [Get (App.API_BASE (lit "http:") (lit "localhost")) (lit "/search")
       (lit " hi ")].
Proof.
  apply (proj1 (proj2 (performSearch_request_iff (lit "http:") (lit "localhost")
                         failing_http_get (App.mkState (lit " hi ") [] false)))).
  reflexivity.
Defined.



(** ** The proxy table and the requests of ResultItem.vue *)



Lemma startsWith_nth_error k path i :
  startsWith k path = true -> i < List.length k ->
  nth_error path i = nth_error k i.
Proof.
  revert path i. induction k as [|c k IH]; intros path i H Hi;
    [simpl in Hi; lia|].
  destruct path as [|d path]; [discriminate|].
  simpl in H. apply andb_prop in H. destruct H as [Hcd H].
  apply N.eqb_eq in Hcd. subst d.
  destruct i as [|i]; [reflexivity|]. simpl. apply IH; [exact H|simpl in Hi; lia].
Qed.

Ltac keys_differ_at i Ha Hb :=
  exfalso;
  let Ea := fresh in let Eb := fresh in
  pose proof (startsWith_nth_error _ _ i Ha ltac:(vm_compute; lia)) as Ea;
  pose proof (startsWith_nth_error _ _ i Hb ltac:(vm_compute; lia)) as Eb;
  rewrite Ea in Eb; discriminate Eb.

(** X12: no path starts with two keys of the proxy table, so the entry
    that takes a request does not depend on the order of the entries. *)
Theorem proxy_keys_disjoint Canonicalize (path : js_string) e1 e2 :
  In e1 (ViteConfig.proxy Canonicalize) ->
  In e2 (ViteConfig.proxy Canonicalize) ->
  startsWith (fst e1) path = true -> startsWith (fst e2) path = true ->
  e1 = e2.
Proof.
  unfold ViteConfig.proxy.
  intros [<-|[<-|[<-|[]]]] [<-|[<-|[<-|[]]]]; cbn [fst]; intros Ha Hb;
    try reflexivity.
  - keys_differ_at 1 Ha Hb.
  - keys_differ_at 1 Ha Hb.
  - keys_differ_at 1 Ha Hb.
  - keys_differ_at 6 Ha Hb.
  - keys_differ_at 1 Ha Hb.
  - keys_differ_at 6 Ha Hb.
Qed.

Lemma proxy_keys_disjoint_witness :
  (lit "/temp_audio",
   ViteConfig.mkProxy (lit "http://localhost:8000") true None)
  = (lit "/temp_audio",
     ViteConfig.mkProxy (lit "http://localhost:8000") true None).
Proof.
  apply (proxy_keys_disjoint ascii_canonicalize (lit "/temp_audio/clip.mp3"));
    [right; left; reflexivity|right; left; reflexivity
    |reflexivity|reflexivity].
Defined.


